(** * libdevcrypto: signatures, addresses and the secret store

    A shallow embedding of [Common.cpp] (the secp256k1 layer: [isValid],
    [toPublic], [toPublicCompressed], [toPubkey], [toAddress], [recover],
    [sign], [verify]), of [SecretStore.cpp] (the password-encrypted key
    store) and of the ECIES functions of [EC.cpp], with the properties the
    specification states about them and further properties of the code.

    Conventions.
    - A [FixedHash<N>] ([h128], [h160], [h256], [Public], ...) is the
      big-endian value of its [N] bytes, a [Z] in [0, 2^(8N))]; the
      lexicographic order of [FixedHash] is then the order of [Z].
      [u256] is a [Z] with its wrap-around modulo [2^256] written out.
    - [bytes] ([std::vector<byte>]) is a list of [Byte.byte].
    - libsecp256k1, Keccak, PBKDF2, AES, Crypto++ and json_spirit are not
      part of the repository: each is a class of operations, an instance
      of which the functions take, and each theorem states as hypotheses
      the part of the contract of these libraries that it relies on.
    - The disk holds the regular files, each under the file that its path
      names: what a path names, and whether a directory can be created,
      are the file system's to say ([FileSystem]).  Writing a file and
      removing one do not fail.
    - An [assert] that fails and an exception that is thrown are results
      of their own ([AssertionFailed], [Throw]); what the store does to
      the outside (callback, AES decryption, files, warnings) is recorded
      in a trace. *)

From stdpp Require Import gmap strings list fin_maps sorting.
From Stdlib Require Import ZArith Lia.
From Stdlib.Strings Require Import Byte Ascii.

#[local] Set Warnings "-register-all".
#[local] Open Scope Z_scope.

(** ** Bytes and fixed-size hashes *)

Abbreviation bytes := (list byte).

#[global] Instance byte_eq_decision : EqDecision byte := Byte.byte_eq_dec.

Definition byte_to_Z (b : byte) : Z := Z.of_N (Byte.to_N b).

Definition byte_of_Z (z : Z) : byte :=
  default x00 (Byte.of_N (Z.to_N (z mod 256))).

(** Modelled from the spec: [FixedBytes<N>] and [BigInt256] convert to and
    from big-endian bytes ([FixedHash::ref], [asBytes], [toBigEndian]).
    [toBigEndian n z] is the [n] low-order bytes of [z], most significant
    first. *)
Fixpoint toBigEndian (n : nat) (z : Z) : bytes :=
  match n with
  | O => []
  | S n' => toBigEndian n' (z / 256) ++ [byte_of_Z z]
  end.

(** Modelled from the spec: the big-endian value of a byte string
    ([fromBigEndian], the [FixedHash] to [u256] conversion). *)
Definition fromBigEndian (bs : bytes) : Z :=
  fold_left (fun acc b => acc * 256 + byte_to_Z b) bs 0.

Abbreviation h128 := Z (only parsing).
Abbreviation h160 := Z (only parsing).
Abbreviation h256 := Z (only parsing).
Abbreviation u256 := Z (only parsing).
Abbreviation Secret := Z (only parsing).
Abbreviation Public := Z (only parsing).
Abbreviation Address := Z (only parsing).

(** Modelled from the spec: [right160] keeps the rightmost 20 bytes of a
    32-byte hash. *)
Definition right160 (h : h256) : h160 :=
  fromBigEndian (drop 12 (toBigEndian 32 h)).

(** An [assert] of the source either passes or aborts the process. *)
Inductive checked (A : Type) : Type :=
  | Done (a : A)
  | AssertionFailed.
Arguments Done {A} a.
Arguments AssertionFailed {A}.

Definition assert (b : bool) : checked unit :=
  if b then Done tt else AssertionFailed.

Definition checked_bind {A B} (m : checked A) (k : A → checked B) : checked B :=
  match m with
  | Done a => k a
  | AssertionFailed => AssertionFailed
  end.

(** ** Common.cpp *)

Definition c_secp256k1n : u256 :=
  115792089237316195423570985008687907852837564279074904382605163141518161494337.

Module SignatureStruct.

(** [struct SignatureStruct { h256 r; h256 s; byte v; }], the view of the
    65 bytes of a [Signature]: [r] is bytes 0-31, [s] bytes 32-63, [v]
    byte 64. *)
Record t : Type := mk { r : h256; s : h256; v : Z }.

Definition s_max : h256 :=
  0xfffffffffffffffffffffffffffffffebaaedce6af48a03bbfd25e8cd0364141.

Definition s_zero : h256 := 0.

Definition isValid (sig : t) : bool :=
  bool_decide (v sig ≤ 1) && bool_decide (r sig > s_zero)
  && bool_decide (s sig > s_zero) && bool_decide (r sig < s_max)
  && bool_decide (s sig < s_max).

(** The typing of the three fields: two 32-byte values and one byte. *)
Definition wf (sig : t) : Prop :=
  0 ≤ r sig < 2 ^ 256 ∧ 0 ≤ s sig < 2 ^ 256 ∧ 0 ≤ v sig < 256.

(** The hexadecimal constant that the specification prints for the group
    order in its description of [isValid]. *)
Definition spec_hex_order : Z :=
  0xffffffffffffffffffffffffffffffffbaaedce6af48a03bbfd25e8cd0364141.

End SignatureStruct.

Abbreviation Signature := SignatureStruct.t (only parsing).

(** [Signature()] and [Public()]: all bytes zero. *)
Definition Signature_zero : Signature := SignatureStruct.mk 0 0 0.

Inductive pubkey_flags := SECP256K1_EC_UNCOMPRESSED | SECP256K1_EC_COMPRESSED.

(** libsecp256k1, called through the context of [getCtx()].  A compact
    recoverable signature is given by the 256-bit values [r] and [s] of
    its 64 bytes and by the recovery id. *)
Class Secp256k1 : Type := {
  secp256k1_pubkey : Type;
  secp256k1_ecdsa_recoverable_signature : Type;
  secp256k1_ec_pubkey_create : Secret → option secp256k1_pubkey;
  secp256k1_ec_pubkey_serialize : secp256k1_pubkey → pubkey_flags → bytes;
  (* arguments: msg32, seckey *)
  secp256k1_ecdsa_sign_recoverable :
    h256 → Secret → option secp256k1_ecdsa_recoverable_signature;
  (* result: r, s, recid *)
  secp256k1_ecdsa_recoverable_signature_serialize_compact :
    secp256k1_ecdsa_recoverable_signature → Z * Z * Z;
  (* arguments: r, s, recid *)
  secp256k1_ecdsa_recoverable_signature_parse_compact :
    Z → Z → Z → option secp256k1_ecdsa_recoverable_signature;
  secp256k1_ecdsa_recover :
    secp256k1_ecdsa_recoverable_signature → h256 → option secp256k1_pubkey
}.

(** Keccak-256 ([dev::sha3]), with its result as an [h256]. *)
Class Keccak : Type := { sha3 : bytes → h256 }.

Section Common.

Context {CURVE : Secp256k1} {KECCAK : Keccak}.

(** [toPublicKey<KeySize>]: [None] is the [false] of the source, the
    bytes are the contents of [o_serializedPubkey]. *)
Definition toPublicKey (KeySize : nat) (_secret : Secret)
    (_flags : pubkey_flags) : checked (option bytes) :=
  match secp256k1_ec_pubkey_create _secret with
  | None => Done None
  | Some rawPubkey =>
      let o_serializedPubkey :=
        secp256k1_ec_pubkey_serialize rawPubkey _flags in
      checked_bind
        (assert (bool_decide (length o_serializedPubkey = KeySize)))
        (fun _ => Done (Some o_serializedPubkey))
  end.

(** [Public{&serializedPubkey[1], Public::ConstructFromPointer}]. *)
Definition Public_skipping_header (serializedPubkey : bytes) : Public :=
  fromBigEndian (take 64 (drop 1 serializedPubkey)).

Definition toPublic (_secret : Secret) : checked Public :=
  checked_bind (toPublicKey 65 _secret SECP256K1_EC_UNCOMPRESSED)
    (fun res =>
       match res with
       | None => Done 0
       | Some serializedPubkey =>
           checked_bind
             (assert (bool_decide (head serializedPubkey = Some x04)))
             (fun _ => Done (Public_skipping_header serializedPubkey))
       end).

(** [toAddress(Public const&)]. *)
Definition toAddress_Public (_public : Public) : Address :=
  right160 (sha3 (toBigEndian 64 _public)).

(** [toAddress(Secret const&)]. *)
Definition toAddress (_secret : Secret) : checked Address :=
  checked_bind (toPublic _secret) (fun p => Done (toAddress_Public p)).

Definition recover (_sig : Signature) (_message : h256) : checked Public :=
  let v := SignatureStruct.v _sig in
  if bool_decide (v > 3) then Done 0
  else
    match secp256k1_ecdsa_recoverable_signature_parse_compact
            (SignatureStruct.r _sig) (SignatureStruct.s _sig) v with
    | None => Done 0
    | Some rawSig =>
        match secp256k1_ecdsa_recover rawSig _message with
        | None => Done 0
        | Some rawPubkey =>
            let serializedPubkey :=
              secp256k1_ec_pubkey_serialize rawPubkey
                SECP256K1_EC_UNCOMPRESSED in
            checked_bind
              (assert (bool_decide (length serializedPubkey = 65%nat)))
              (fun _ =>
                 checked_bind
                   (assert (bool_decide (head serializedPubkey = Some x04)))
                   (fun _ => Done (Public_skipping_header serializedPubkey)))
        end
    end.

Definition sign (_k : Secret) (_hash : h256) : checked Signature :=
  match secp256k1_ecdsa_sign_recoverable _hash _k with
  | None => Done Signature_zero
  | Some rawSig =>
      let '(r, s, v) :=
        secp256k1_ecdsa_recoverable_signature_serialize_compact rawSig in
      (* ss.v = static_cast<byte>(v) *)
      let ss := SignatureStruct.mk r s (v mod 256) in
      let ss :=
        if bool_decide (SignatureStruct.s ss > c_secp256k1n / 2) then
          SignatureStruct.mk
            (SignatureStruct.r ss)
            ((c_secp256k1n - SignatureStruct.s ss) mod 2 ^ 256)
            (Z.lxor (SignatureStruct.v ss) 1 mod 256)
        else ss in
      checked_bind
        (assert (bool_decide (SignatureStruct.s ss ≤ c_secp256k1n / 2)))
        (fun _ => Done ss)
  end.

End Common.

(** ** Hexadecimal text, UUIDs, [std::stoi] and paths *)

(** The digit of a value below 16: ['0' + n] or ['a' + n - 10]. *)
Definition hexchar (n : Z) : ascii :=
  ascii_of_N (Z.to_N (if bool_decide (n < 10) then 48 + n else 87 + n)).

(** The value of a hex digit, upper or lower case, of [fromHex(char)]. *)
Definition fromHex_char (c : ascii) : option Z :=
  let i := Z.of_N (N_of_ascii c) in
  if bool_decide (48 ≤ i ≤ 57) then Some (i - 48)
  else if bool_decide (97 ≤ i ≤ 102) then Some (i - 97 + 10)
  else if bool_decide (65 ≤ i ≤ 70) then Some (i - 65 + 10)
  else None.

Definition toHex_byte (b : byte) : list ascii :=
  [hexchar (byte_to_Z b / 16); hexchar (byte_to_Z b mod 16)].

(** Modelled from the spec: hex encoding of [FixedBytes] and of byte
    strings ([toHex]): two lowercase digits per byte, no prefix. *)
Definition toHex (bs : bytes) : string :=
  String.string_of_list_ascii (mjoin (toHex_byte <$> bs)).

Fixpoint fromHex_pairs (cs : list ascii) : option bytes :=
  match cs with
  | [] => Some []
  | h :: l :: rest =>
      match fromHex_char h, fromHex_char l, fromHex_pairs rest with
      | Some h, Some l, Some bs => Some (byte_of_Z (h * 16 + l) :: bs)
      | _, _, _ => None
      end
  | [_] => None
  end.

(** Modelled from the spec: hex decoding ([fromHex]).  An optional [0x]
    prefix is skipped, a string of odd length starts with a single digit,
    and a character that is no hex digit makes the result empty. *)
Definition fromHex (_s : string) : bytes :=
  let cs := String.list_ascii_of_string _s in
  let cs := match cs with
            | "0"%char :: "x"%char :: rest => rest
            | _ => cs
            end in
  let res :=
    if Nat.odd (length cs) then
      match cs with
      | h :: rest =>
          match fromHex_char h, fromHex_pairs rest with
          | Some h, Some bs => Some (byte_of_Z h :: bs)
          | _, _ => None
          end
      | [] => None
      end
    else fromHex_pairs cs in
  default [] res.

Inductive ConstructFromHashType := AlignLeft | AlignRight | FailIfDifferent.

(** Modelled from the spec: construction of a [FixedBytes<N>] from a byte
    string.  With [AlignRight] a shorter input is zero-padded on the left
    and of a longer one the rightmost [N] bytes are kept; with
    [FailIfDifferent] an input of another length gives the zero hash. *)
Definition FixedHash_of_bytes (N : nat) (_b : bytes)
    (_t : ConstructFromHashType) : Z :=
  if bool_decide (length _b = N) then fromBigEndian _b
  else
    match _t with
    | FailIfDifferent => 0
    | AlignRight => fromBigEndian _b mod 2 ^ (8 * Z.of_nat N)
    | AlignLeft =>
        fromBigEndian (take N (_b ++ replicate N x00))
    end.

(** Modelled from the spec: [FixedHash<N>(FixedHash<M>, AlignRight)], the
    rightmost [N] bytes of a longer hash. *)
Definition FixedHash_AlignRight (N : nat) (_h : Z) : Z :=
  _h mod 2 ^ (8 * Z.of_nat N).

(** [FixedHash<N>(std::string)] with its defaults [FromHex] and
    [FailIfDifferent]. *)
Definition FixedHash_of_hex (N : nat) (_s : string) : Z :=
  FixedHash_of_bytes N (fromHex _s) FailIfDifferent.

(** Modelled from the spec: the text form of a UUID, lowercase hex in
    groups of 8-4-4-4-12 digits. *)
Definition toUUID (_uuid : h128) : string :=
  let h := String.list_ascii_of_string (toHex (toBigEndian 16 _uuid)) in
  String.string_of_list_ascii
    (take 8 h ++ "-"%char :: take 4 (drop 8 h) ++ "-"%char ::
     take 4 (drop 12 h) ++ "-"%char :: take 4 (drop 16 h) ++ "-"%char ::
     drop 20 h).

(** Modelled from the spec: [fromUUID] is the inverse of [toUUID], and
    malformed text fails with [MalformedUUID] ([None] here).  The hyphens
    are dropped and the rest is read as hex; the text is well formed when
    it is the text form of the UUID so read. *)
Definition fromUUID (_uuid : string) : option h128 :=
  let u :=
    FixedHash_of_hex 16
      (String.string_of_list_ascii
         (filter (λ c, c ≠ "-"%char) (String.list_ascii_of_string _uuid))) in
  if bool_decide (toUUID u = _uuid) then Some u else None.

Fixpoint stoi_digits (cs : list ascii) (acc : option Z) : option Z :=
  match cs with
  | c :: rest =>
      match Ascii.is_nat c with
      | Some d => stoi_digits rest (Some (default 0 acc * 10 + Z.of_nat d))
      | None => acc
      end
  | [] => acc
  end.

Fixpoint stoi_skip_space (cs : list ascii) : list ascii :=
  match cs with
  | c :: rest => if Ascii.is_space c then stoi_skip_space rest else cs
  | [] => []
  end.

(** [std::stoi]: leading white space, an optional sign, then decimal
    digits; what follows the digits is ignored.  [None] stands for the
    exceptions [std::invalid_argument] (no digit) and [std::out_of_range]
    (the value is no [int]). *)
Definition stoi (_str : string) : option Z :=
  let cs := stoi_skip_space (String.list_ascii_of_string _str) in
  let '(neg, cs) := match cs with
                    | "-"%char :: rest => (true, rest)
                    | "+"%char :: rest => (false, rest)
                    | _ => (false, cs)
                    end in
  match stoi_digits cs None with
  | Some n =>
      let z := if neg then - n else n in
      if bool_decide (- 2 ^ 31 ≤ z < 2 ^ 31) then Some z else None
  | None => None
  end.

(** [boost::filesystem::path::operator/] on the string forms. *)
Definition path_append (p name : string) : string :=
  match last (String.list_ascii_of_string p) with
  | None => name
  | Some "/"%char => p +:+ name
  | Some _ => p +:+ "/" +:+ name
  end.

(** The entries of directory [p]: the paths [p / name] for a non-empty
    [name] without separator. *)
Definition in_directory (p path : string) : bool :=
  let pre := String.list_ascii_of_string (path_append p "") in
  let cs := String.list_ascii_of_string path in
  bool_decide (take (length pre) cs = pre
               ∧ drop (length pre) cs ≠ []
               ∧ "/"%char ∉ drop (length pre) cs).

(** ** json_spirit values *)

(** [js::mValue], with a constructor per [Value_type] (reals are left
    out: the store neither reads nor writes one).  [js::mObject] is the
    map of an object's members. *)
Inductive mValue : Type :=
  | null_type
  | str_type (s : string)
  | int_type (i : Z)
  | bool_type (b : bool)
  | array_type (a : list mValue)
  | obj_type (o : gmap string mValue).

Abbreviation mObject := (gmap string mValue).

(** The reader and the writer of json_spirit.  The [std::string] that
    holds a JSON document is only produced by the writer or read from a
    file, and only consumed by the reader or written to a file: it is kept
    as the type [json_text] of the library.  [read_string s value] takes
    the value its second argument refers to before the call and gives the
    [bool] it returns and the value left there. *)
Class JsonSpirit : Type := {
  json_text : Type;
  read_string : json_text → mValue → bool * mValue;
  write_string : mValue → bool → json_text
}.

(** PBKDF2 and AES-128-CBC of the crypto library: [pbkdf2 _pass _salt
    _iterations _dkLen], [encryptSymNoAuth _k _iv _plain] and
    [decryptSymNoAuth _k _iv _cipher]. *)
Class SymmetricCrypto : Type := {
  pbkdf2 : string → bytes → Z → Z → bytes;
  encryptSymNoAuth : h128 → h128 → bytes → bytes;
  decryptSymNoAuth : h128 → h128 → bytes → bytes
}.

(** The file system under [boost::filesystem] and [writeFile].
    [canonical path] is the file that a path names: two spellings of one
    file ([keys/k.json] and [./keys/k.json]) have the same.
    [can_create_directories p disk] tells whether
    [boost::filesystem::create_directories(p)] returns on a disk with
    these regular files; otherwise it throws (as it does when [p] or a
    parent of it is a regular file). *)
Class FileSystem {JSON : JsonSpirit} : Type := {
  canonical : string → string;
  can_create_directories : string → gmap string json_text → bool
}.

(** ** Effects: state, exceptions and the trace of observable actions *)

Inductive exn :=
  | json_runtime_error
  | stoi_exception
  | filesystem_error
  | MalformedUUID.

Inductive outcome (A : Type) : Type :=
  | Ret (a : A)
  | Throw (e : exn).
Arguments Ret {A} a.
Arguments Throw {A} e.

(** A computation over a state [S] that returns or throws; the state at a
    throw is the one reached so far. *)
Definition Eff (S A : Type) : Type := S → outcome A * S.

Definition eff_ret {S A} (a : A) : Eff S A := λ s, (Ret a, s).

Definition eff_throw {S A} (e : exn) : Eff S A := λ s, (Throw e, s).

Definition eff_bind {S A B} (m : Eff S A) (k : A → Eff S B) : Eff S B :=
  λ s, match m s with
       | (Ret a, s') => k a s'
       | (Throw e, s') => (Throw e, s')
       end.

Definition eff_get {S} : Eff S S := λ s, (Ret s, s).

Definition eff_modify {S} (f : S → S) : Eff S unit := λ s, (Ret tt, f s).

Notation "'let!' x := m 'in' k" := (eff_bind m (λ x, k))
  (at level 10, x name, m at level 100, k at level 200, only parsing).
Notation "'do!' m 'in' k" := (eff_bind m (λ _, k))
  (at level 10, m at level 100, k at level 200, only parsing).

(** [operator[]] of [js::mObject]: a missing member reads as null. *)
Definition member (o : mObject) (name : string) : mValue :=
  default null_type (o !! name).
Arguments member : simpl never.

Definition get_obj {S} (v : mValue) : Eff S mObject :=
  match v with obj_type o => eff_ret o | _ => eff_throw json_runtime_error end.

Definition get_str {S} (v : mValue) : Eff S string :=
  match v with str_type s => eff_ret s | _ => eff_throw json_runtime_error end.

(** [get_int] casts the stored 64-bit integer to [int]. *)
Definition to_int (i : Z) : Z := (i + 2 ^ 31) mod 2 ^ 32 - 2 ^ 31.

Definition get_int {S} (v : mValue) : Eff S Z :=
  match v with
  | int_type i => eff_ret (to_int i)
  | _ => eff_throw json_runtime_error
  end.

(** Conversion of an [int] to [unsigned]. *)
Definition to_unsigned (i : Z) : Z := i mod 2 ^ 32.

(** Modelled from the spec: [bytesConstRef(&b).cropped(_begin)] for a
    [size_t] offset, which the store uses to take the last 16 bytes of
    the derived key: the bytes from [_begin] on, and nothing when the
    offset is past the end. *)
Definition cropped (b : bytes) (_begin : Z) : bytes :=
  if bool_decide (_begin ≤ Z.of_nat (length b)) then drop (Z.to_nat _begin) b
  else [].

(** [size_t] subtraction. *)
Definition size_t_sub (a b : Z) : Z := (a - b) mod 2 ^ 64.

Section SecretStore.

Context {JSON : JsonSpirit} {CRYPTO : SymmetricCrypto} {KECCAK : Keccak}.
Context {FS : FileSystem}.

Inductive Warning :=
  | UnknownPRF (prf : string)
  | UnknownKDF (kdf : string)
  | MacMismatch (macExp mac : h256)
  | UnknownCipher (cipher : string)
  | CannotReadKeyVersion (version : Z).

(** What the store does that can be observed from outside: a call of the
    passphrase callback, a run of the AES decryption, a file written or
    removed, a warning logged. *)
Inductive Event :=
  | EvPass
  | EvDecryptSym (key iv : h128) (cipherText : bytes)
  | EvWriteFile (filename : string) (contents : json_text)
  | EvRemove (filename : string)
  | EvWarn (w : Warning).

Definition emit (e : Event) : Eff (list Event) unit :=
  eff_modify (λ l, l ++ [e]).

Definition cwarn (w : Warning) : Eff (list Event) unit := emit (EvWarn w).

(** A computation that only adds events to the trace, none of them a call
    of the passphrase callback. *)
Definition no_pass_call {A} (m : Eff (list Event) A) : Prop :=
  ∀ l res l', m l = (res, l') → ∃ evs, l' = l ++ evs ∧ EvPass ∉ evs.

(** The object [ret] that [SecretStore::encrypt] builds; [salt_random] and
    [iv] are the values drawn by [h256::random()] and [h128::random()]. *)
Definition encrypt_object (_v : bytes) (_pass : string) (salt_random : h256)
    (iv : h128) : mObject :=
  let ret : mObject := ∅ in
  let dklen := 16 in
  let iterations := 262144 in
  let salt := toBigEndian 32 salt_random in
  let ret := <["kdf" := str_type "pbkdf2"]> ret in
  let params : mObject := ∅ in
  let params := <["prf" := str_type "hmac-sha256"]> params in
  let params := <["c" := int_type iterations]> params in
  let params := <["salt" := str_type (toHex salt)]> params in
  let params := <["dklen" := int_type dklen]> params in
  let ret := <["kdfparams" := obj_type params]> ret in
  let derivedKey := pbkdf2 _pass salt iterations dklen in
  let ret := <["cipher" := str_type "aes-128-cbc"]> ret in
  let key :=
    FixedHash_AlignRight 16
      (sha3 (toBigEndian 16 (FixedHash_of_bytes 16 derivedKey AlignRight))) in
  let params : mObject := ∅ in
  let params := <["iv" := str_type (toHex (toBigEndian 16 iv))]> params in
  let ret := <["cipherparams" := obj_type params]> ret in
  let cipherText := encryptSymNoAuth key iv _v in
  let ret := <["ciphertext" := str_type (toHex cipherText)]> ret in
  let mac :=
    sha3 (cropped derivedKey
            (size_t_sub (Z.of_nat (length derivedKey)) 16) ++ cipherText) in
  let ret := <["mac" := str_type (toHex (toBigEndian 32 mac))]> ret in
  ret.

(** [SecretStore::encrypt]: the object is returned as JSON text. *)
Definition encrypt (_v : bytes) (_pass : string) (salt_random : h256)
    (iv : h128) : json_text :=
  write_string (obj_type (encrypt_object _v _pass salt_random iv)) true.

(** The last part of [SecretStore::decrypt], after the MAC check. *)
Definition decrypt_cipher (o : mObject) (derivedKey cipherText : bytes)
    : Eff (list Event) bytes :=
  let! cipher := get_str (member o "cipher") in
  if bool_decide (cipher = "aes-128-cbc") then
    let! params := get_obj (member o "cipherparams") in
    let key :=
      FixedHash_AlignRight 16
        (sha3 (toBigEndian 16
                 (FixedHash_of_bytes 16 derivedKey AlignRight))) in
    let! iv_s := get_str (member params "iv") in
    let iv := FixedHash_of_hex 16 iv_s in
    do! emit (EvDecryptSym key iv cipherText) in
    eff_ret (decryptSymNoAuth key iv cipherText)
  else
    do! cwarn (UnknownCipher cipher) in
    eff_ret [].

(** The middle part of [SecretStore::decrypt], from [bytes cipherText] on,
    once [derivedKey] is there: the MAC check. *)
Definition decrypt_with_key (o : mObject) (derivedKey : bytes)
    : Eff (list Event) bytes :=
  let! ct := get_str (member o "ciphertext") in
  let cipherText := fromHex ct in
  let! mac_s := get_str (member o "mac") in
  let mac := FixedHash_of_hex 32 mac_s in
  let macExp :=
    sha3 (cropped derivedKey
            (size_t_sub (Z.of_nat (length derivedKey)) 16) ++ cipherText) in
  if bool_decide (mac ≠ macExp) then
    do! cwarn (MacMismatch macExp mac) in
    eff_ret []
  else decrypt_cipher o derivedKey cipherText.

(** [SecretStore::decrypt]. *)
Definition decrypt (_v : json_text) (_pass : string) : Eff (list Event) bytes :=
  let ov := (read_string _v null_type).2 in
  let! o := get_obj ov in
  let! kdf := get_str (member o "kdf") in
  if bool_decide (kdf = "pbkdf2") then
    let! params := get_obj (member o "kdfparams") in
    let! prf := get_str (member params "prf") in
    if bool_decide (prf ≠ "hmac-sha256") then
      do! cwarn (UnknownPRF prf) in
      eff_ret []
    else
      let! c := get_int (member params "c") in
      let iterations := to_unsigned c in
      let! salt_s := get_str (member params "salt") in
      let salt := fromHex salt_s in
      let! dklen := get_int (member params "dklen") in
      let derivedKey := pbkdf2 _pass salt iterations (to_unsigned dklen) in
      decrypt_with_key o derivedKey
  else
    do! cwarn (UnknownKDF kdf) in
    eff_ret [].

(** The members of a [SecretStore], the regular files of the disk (each
    under the file that its path names) and the trace of what has been
    done so far. *)
Record World : Type := mkWorld {
  m_keys : gmap Z (json_text * string);
  m_cached : gmap Z bytes;
  files : gmap string json_text;
  trace : list Event
}.

Definition set_keys (f : gmap Z (json_text * string) → gmap Z (json_text * string))
    (w : World) : World :=
  mkWorld (f (m_keys w)) (m_cached w) (files w) (trace w).

Definition set_cached (f : gmap Z bytes → gmap Z bytes) (w : World) : World :=
  mkWorld (m_keys w) (f (m_cached w)) (files w) (trace w).

Definition set_files (f : gmap string json_text → gmap string json_text)
    (w : World) : World :=
  mkWorld (m_keys w) (m_cached w) (f (files w)) (trace w).

Definition set_trace (f : list Event → list Event) (w : World) : World :=
  mkWorld (m_keys w) (m_cached w) (files w) (f (trace w)).

(** A computation that only logs, run inside the world. *)
Definition log {A} (m : Eff (list Event) A) : Eff World A :=
  λ w, let '(res, l) := m (trace w) in (res, set_trace (λ _, l) w).

(** [writeFile] and [boost::filesystem::remove] (removing a file that is
    not there does nothing), on the file that the path names. *)
Definition writeFile (filename : string) (contents : json_text)
    : Eff World unit :=
  do! log (emit (EvWriteFile filename contents)) in
  eff_modify (set_files (<[canonical filename := contents]>)).

Definition fs_remove (filename : string) : Eff World unit :=
  do! log (emit (EvRemove filename)) in
  eff_modify (set_files (delete (canonical filename))).

(** [boost::filesystem::create_directories]; it throws when the directory
    is not there and cannot be created. *)
Definition create_directories (p : string) : Eff World unit :=
  let! w := eff_get in
  if can_create_directories p (files w) then eff_ret tt
  else eff_throw filesystem_error.

(** [for (... : ...)] over a snapshot of the elements. *)
Fixpoint eff_for {S A} (l : list A) (body : A → Eff S unit) : Eff S unit :=
  match l with
  | [] => eff_ret tt
  | x :: l' => do! body x in eff_for l' body
  end.

(** The keys directory under [getDataDir()], the default argument of
    [save] and [load]. *)
Variable default_keysPath : string.

(** The call [_pass()] of the passphrase callback. *)
Definition call_pass (_pass : unit → string) : Eff World string :=
  do! log (emit EvPass) in
  eff_ret (_pass tt).

Definition secret (_uuid : h128) (_pass : unit → string) : Eff World bytes :=
  let! w := eff_get in
  match m_cached w !! _uuid with
  | Some cached => eff_ret cached
  | None =>
      match m_keys w !! _uuid with
      | None => eff_ret []
      | Some it =>
          let! pass := call_pass _pass in
          let! key := log (decrypt it.1 pass) in
          do! (if bool_decide (key ≠ [])
               then eff_modify (set_cached (<[_uuid := key]>))
               else eff_ret tt) in
          eff_ret key
      end
  end.

(** The body of the loop of [SecretStore::save] for the element [k] of
    [m_keys]. *)
Definition save_entry (p : string) (k : Z * (json_text * string))
    : Eff World unit :=
  let uuid := toUUID k.1 in
  let filename := path_append p uuid +:+ ".json" in
  let v : mObject := ∅ in
  let crypto := (read_string k.2.1 null_type).2 in
  let v := <["crypto" := crypto]> v in
  let v := <["id" := str_type uuid]> v in
  let v := <["version" := int_type 2]> v in
  do! writeFile filename (write_string (obj_type v) true) in
  do! (if bool_decide (k.2.2 ≠ "" ∧ k.2.2 ≠ filename)
       then fs_remove k.2.2
       else eff_ret tt) in
  eff_modify (set_keys (alter (λ e, (e.1, filename)) k.1)).

(** The order in which [std::map] enumerates its elements. *)
Definition key_le (a b : Z * (json_text * string)) : Prop := a.1 ≤ b.1.

#[global] Instance key_le_dec : RelDecision key_le :=
  λ a b, decide (a.1 ≤ b.1).

(** [SecretStore::save]: the elements of [m_keys] in ascending order of
    their key. *)
Definition save (_keysPath : string) : Eff World unit :=
  do! create_directories _keysPath in
  let! w := eff_get in
  eff_for (merge_sort key_le (map_to_list (m_keys w))) (save_entry _keysPath).

(** [int version = o.count("Version") ? stoi(o["Version"].get_str())
    : o.count("version") ? o["version"].get_int() : 0]. *)
Definition key_version {S} (o : mObject) : Eff S Z :=
  if bool_decide (is_Some (o !! "Version")) then
    let! s := get_str (member o "Version") in
    match stoi s with
    | Some i => eff_ret i
    | None => eff_throw stoi_exception
    end
  else if bool_decide (is_Some (o !! "version")) then
    get_int (member o "version")
  else eff_ret 0.

(** What [SecretStore::load] does with the object [o] read from the file
    [path]. *)
Definition load_object (o : mObject) (path : string) : Eff World unit :=
  let! version := key_version o in
  if bool_decide (version = 2) then
    let! id := get_str (member o "id") in
    match fromUUID id with
    | Some uuid =>
        eff_modify
          (set_keys (<[uuid :=
                         (write_string (member o "crypto") false, path)]>))
    | None => eff_throw MalformedUUID
    end
  else log (cwarn (CannotReadKeyVersion version)).

(** The loop of [SecretStore::load] over the regular files of the
    directory; [v] is the [js::mValue] declared before the loop. *)
Fixpoint load_files (entries : list (string * json_text)) (v : mValue)
    : Eff World unit :=
  match entries with
  | [] => eff_ret tt
  | e :: rest =>
      let v := (read_string e.2 v).2 in
      do! (match v with
           | obj_type o => load_object o e.1
           | _ => eff_ret tt
           end) in
      load_files rest v
  end.

(** The name of the entry [q] of the directory [dir]: what follows the
    directory and the separator. *)
Definition entry_name (dir q : string) : string :=
  String.string_of_list_ascii
    (drop (length (String.list_ascii_of_string (path_append dir "")))
       (String.list_ascii_of_string q)).

(** [fs::directory_iterator it(p)] restricted to regular files: the files
    of the directory that [p] names, each as the path [p / name] that
    [it->path()] gives and with the contents that [contentsString] reads
    there. *)
Definition directory_iterator (fs : gmap string json_text) (p : string)
    : list (string * json_text) :=
  omap (λ e, if in_directory (canonical p) e.1
             then Some (path_append p (entry_name (canonical p) e.1), e.2)
             else None)
    (map_to_list fs).

Definition load (_keysPath : string) : Eff World unit :=
  do! create_directories _keysPath in
  let! w := eff_get in
  load_files (directory_iterator (files w) _keysPath) null_type.

(** [SecretStore::importSecret]; [r], [salt] and [iv] are the random
    values drawn by it and by [encrypt]. *)
Definition importSecret (_s : bytes) (_pass : string) (r : h128)
    (salt : h256) (iv : h128) : Eff World h128 :=
  do! eff_modify (set_cached (<[r := _s]>)) in
  do! eff_modify (set_keys (<[r := (encrypt _s _pass salt iv, "")]>)) in
  do! save default_keysPath in
  eff_ret r.

Definition kill (_uuid : h128) : Eff World unit :=
  do! eff_modify (set_cached (delete _uuid)) in
  let! w := eff_get in
  match m_keys w !! _uuid with
  | Some it =>
      do! fs_remove it.2 in
      eff_modify (set_keys (delete _uuid))
  | None => eff_ret tt
  end.

Definition clearCache : Eff World unit :=
  eff_modify (set_cached (λ _, ∅)).

(** The invariant of the store: every UUID of the cache is a UUID of
    [m_keys]. *)
Definition cache_subset_keys (w : World) : Prop :=
  dom (m_cached w) ⊆ dom (m_keys w).

(** The members that [decrypt] reads up to its MAC check, in the JSON text
    [_v]. *)
Record keystore_fields : Type := mkFields {
  kf_object : mObject;
  kf_c : Z;
  kf_salt : string;
  kf_dklen : Z;
  kf_ciphertext : string;
  kf_mac : string
}.

Definition has_fields (_v : json_text) (f : keystore_fields) : Prop :=
  ∃ params : mObject,
    (read_string _v null_type).2 = obj_type (kf_object f)
    ∧ member (kf_object f) "kdf" = str_type "pbkdf2"
    ∧ member (kf_object f) "kdfparams" = obj_type params
    ∧ member params "prf" = str_type "hmac-sha256"
    ∧ member params "c" = int_type (kf_c f)
    ∧ member params "salt" = str_type (kf_salt f)
    ∧ member params "dklen" = int_type (kf_dklen f)
    ∧ member (kf_object f) "ciphertext" = str_type (kf_ciphertext f)
    ∧ member (kf_object f) "mac" = str_type (kf_mac f).

(** The key that [decrypt] derives from these members and a passphrase,
    the MAC stored in the text and the MAC expected for it. *)
Definition derived_key (f : keystore_fields) (_pass : string) : bytes :=
  pbkdf2 _pass (fromHex (kf_salt f)) (to_unsigned (to_int (kf_c f)))
    (to_unsigned (to_int (kf_dklen f))).

Definition stored_mac (f : keystore_fields) : h256 :=
  FixedHash_of_hex 32 (kf_mac f).

Definition expected_mac (f : keystore_fields) (_pass : string) : h256 :=
  let derivedKey := derived_key f _pass in
  sha3 (cropped derivedKey (size_t_sub (Z.of_nat (length derivedKey)) 16)
        ++ fromHex (kf_ciphertext f)).

(** The text [_v] passes the MAC check of [decrypt] under [_pass]. *)
Definition mac_verified (_v : json_text) (_pass : string) : Prop :=
  ∃ f, has_fields _v f ∧ stored_mac f = expected_mac f _pass.

(** The version that [load] reads in an object: under [Version] a string
    that [stoi] reads; else under [version] an integer, cast to [int];
    else 0. *)
Definition version_field (o : mObject) (version : Z) : Prop :=
  (∃ s, o !! "Version" = Some (str_type s) ∧ stoi s = Some version)
  ∨ (o !! "Version" = None
     ∧ ∃ i, o !! "version" = Some (int_type i) ∧ version = to_int i)
  ∨ (o !! "Version" = None ∧ o !! "version" = None ∧ version = 0).

(** The object that [save] writes for the element [k] of [m_keys], with
    [version] as the value of its member of that name. *)
Definition key_file_object (k : Z * (json_text * string)) (version : Z)
    : mObject :=
  <["version" := int_type version]>
    (<["id" := str_type (toUUID k.1)]>
       (<["crypto" := (read_string k.2.1 null_type).2]> ∅)).

End SecretStore.

(** ** A small instance of the library interfaces

    The contracts assumed of the libraries by the theorems below are
    satisfiable: this instance meets them.  Its "curve" is the additive
    group of the integers modulo the order, with generator 1. *)

Definition demo_secp256k1 : Secp256k1 := {|
  secp256k1_pubkey := Z;
  secp256k1_ecdsa_recoverable_signature := Z * Z * Z;
  secp256k1_ec_pubkey_create k :=
    if bool_decide (0 < k < c_secp256k1n) then Some k else None;
  secp256k1_ec_pubkey_serialize P _ := x04 :: toBigEndian 64 P;
  secp256k1_ecdsa_sign_recoverable _ k :=
    if bool_decide (0 < k < c_secp256k1n) then Some (1, k, 0) else None;
  secp256k1_ecdsa_recoverable_signature_serialize_compact sig := sig;
  secp256k1_ecdsa_recoverable_signature_parse_compact r s v :=
    if bool_decide (0 ≤ r < c_secp256k1n ∧ 0 ≤ s < c_secp256k1n ∧ 0 ≤ v ≤ 3)
    then Some (r, s, v) else None;
  secp256k1_ecdsa_recover sig _ :=
    if bool_decide (0 < sig.1.2 < c_secp256k1n)
    then Some (if Z.odd sig.2 then c_secp256k1n - sig.1.2 else sig.1.2)
    else None
|}.

(** The same library, signing with the recovery id 2: the x-coordinate of
    the nonce point was not below the group order. *)
Definition demo_secp256k1_overflow : Secp256k1 := {|
  secp256k1_pubkey := Z;
  secp256k1_ecdsa_recoverable_signature := Z * Z * Z;
  secp256k1_ec_pubkey_create :=
    secp256k1_ec_pubkey_create (Secp256k1 := demo_secp256k1);
  secp256k1_ec_pubkey_serialize :=
    secp256k1_ec_pubkey_serialize (Secp256k1 := demo_secp256k1);
  secp256k1_ecdsa_sign_recoverable _ k :=
    if bool_decide (0 < k < c_secp256k1n) then Some (1, k, 2) else None;
  secp256k1_ecdsa_recoverable_signature_serialize_compact sig := sig;
  secp256k1_ecdsa_recoverable_signature_parse_compact :=
    secp256k1_ecdsa_recoverable_signature_parse_compact
      (Secp256k1 := demo_secp256k1);
  secp256k1_ecdsa_recover :=
    secp256k1_ecdsa_recover (Secp256k1 := demo_secp256k1)
|}.

Definition demo_keccak : Keccak := {|
  sha3 bs := (fromBigEndian bs * 31 + 7) mod 2 ^ 256
|}.

Definition demo_crypto : SymmetricCrypto := {|
  pbkdf2 _pass _salt _iterations _dkLen :=
    take (Z.to_nat _dkLen)
      (String.list_byte_of_string _pass
       ++ replicate (Z.to_nat _dkLen) x00);
  encryptSymNoAuth _ _ plain := plain;
  decryptSymNoAuth _ _ cipher := cipher
|}.

Definition demo_json : JsonSpirit := {|
  json_text := mValue;
  read_string s _ := (true, s);
  write_string v _ := v
|}.

(** A file system in which a leading [./] of a path is the one thing that
    does not count, and a directory can be created where no regular file
    is. *)
Fixpoint demo_canonical (cs : list ascii) : list ascii :=
  match cs with
  | "."%char :: "/"%char :: rest => demo_canonical rest
  | _ => cs
  end.

Definition demo_fs : FileSystem (JSON := demo_json) := {|
  canonical path :=
    String.string_of_list_ascii
      (demo_canonical (String.list_ascii_of_string path));
  can_create_directories p disk :=
    bool_decide
      (disk !! String.string_of_list_ascii
                 (demo_canonical (String.list_ascii_of_string p)) = None)
|}.

(** A key file with version 3 and the same file with version 2, in the
    directory [keys]. *)
Definition demo_key_object (version : Z) : mObject :=
  <["version" := int_type version]>
    (<["id" := str_type "00000000-0000-0000-0000-000000000001"]>
       (<["crypto" := null_type]> ∅)).


(** A store with one key, not yet saved. *)
Definition demo_store : World (JSON := demo_json) :=
  mkWorld {[1 := (null_type, "")]} {[1 := [x2a]]} ∅ [].

(** A store with one key, loaded from the directory [./keys]. *)
Definition demo_store_dot : World (JSON := demo_json) :=
  mkWorld
    {[1 := (null_type, "./keys/00000000-0000-0000-0000-000000000001.json")]}
    ∅
    {["keys/00000000-0000-0000-0000-000000000001.json" := null_type]} [].


(** The [filename] of [SecretStore::save] for a UUID:
    [(fs::path(_keysPath) / uuid).string() + ".json"]. *)
Definition key_file (_keysPath : string) (_uuid : h128) : string :=
  path_append _keysPath (toUUID _uuid) +:+ ".json".

(** What an event of [save] can be, for the element [k] of [m_keys]: the
    write of its key file, or the removal of its former backing file. *)
Definition save_event {JSON : JsonSpirit} (p : string)
    (k : Z * (json_text * string)) (ev : Event) : Prop :=
  ev = EvWriteFile (key_file p k.1)
         (write_string (obj_type (key_file_object k 2)) true)
  ∨ (k.2.2 ≠ "" ∧ k.2.2 ≠ key_file p k.1 ∧ ev = EvRemove k.2.2).

(** A reader that rejects the text [None] and then leaves its argument as
    it was. *)
Definition demo_json_files : JsonSpirit := {|
  json_text := option mValue;
  read_string s old :=
    match s with Some v => (true, v) | None => (false, old) end;
  write_string v _ := Some v
|}.

(** ** Common.cpp: compressed keys and verification *)

Abbreviation PublicCompressed := Z (only parsing).

(** The further functions of libsecp256k1 that [Common.cpp] calls, and the
    value-initialized [secp256k1_pubkey] of [return {}]. *)
Class Secp256k1Keys {CURVE : Secp256k1} : Type := {
  secp256k1_pubkey_zero : secp256k1_pubkey;
  secp256k1_ecdsa_signature : Type;
  secp256k1_ec_pubkey_parse : bytes → option secp256k1_pubkey;
  secp256k1_ecdsa_signature_parse_compact :
    bytes → option secp256k1_ecdsa_signature;
  secp256k1_ecdsa_verify :
    secp256k1_ecdsa_signature → h256 → secp256k1_pubkey → bool
}.

Section CommonKeys.

Context {CURVE : Secp256k1} {KEYS : Secp256k1Keys}.

(** [toPublic(PublicCompressed const&)]. *)
Definition toPublic_Compressed (_publicCompressed : PublicCompressed)
    : checked Public :=
  match secp256k1_ec_pubkey_parse (toBigEndian 33 _publicCompressed) with
  | None => Done 0
  | Some rawPubkey =>
      let serializedPubkey :=
        secp256k1_ec_pubkey_serialize rawPubkey SECP256K1_EC_UNCOMPRESSED in
      checked_bind
        (assert (bool_decide (length serializedPubkey = 65%nat)))
        (fun _ =>
           checked_bind
             (assert (bool_decide (head serializedPubkey = Some x04)))
             (fun _ => Done (Public_skipping_header serializedPubkey)))
  end.

Definition toPublicCompressed (_secret : Secret) : checked PublicCompressed :=
  checked_bind (toPublicKey 33 _secret SECP256K1_EC_COMPRESSED)
    (fun res =>
       match res with
       | None => Done 0
       | Some serializedPubkey =>
           checked_bind
             (assert (bool_decide (head serializedPubkey = Some x02
                                   ∨ head serializedPubkey = Some x03)))
             (fun _ => Done (fromBigEndian serializedPubkey))
       end).

Definition toPubkey (_sig : Signature) (_message : h256) : secp256k1_pubkey :=
  let v := SignatureStruct.v _sig in
  if bool_decide (v > 3) then secp256k1_pubkey_zero
  else
    match secp256k1_ecdsa_recoverable_signature_parse_compact
            (SignatureStruct.r _sig) (SignatureStruct.s _sig) v with
    | None => secp256k1_pubkey_zero
    | Some rawSig =>
        match secp256k1_ecdsa_recover rawSig _message with
        | None => secp256k1_pubkey_zero
        | Some rawPubkey => rawPubkey
        end
    end.

(** [verify(Public const&, Signature const&, h256 const&)]; [!_p] holds of
    the all-zero key. *)
Definition verify (_p : Public) (_s : Signature) (_hash : h256)
    : checked bool :=
  if bool_decide (_p = 0) then Done false
  else
    checked_bind (recover _s _hash) (fun q => Done (bool_decide (_p = q))).

(** [verify(PublicCompressed const&, h512 const&, h256 const&)]. *)
Definition verify_Compressed (_key : PublicCompressed) (_signature : Z)
    (_hash : h256) : bool :=
  match secp256k1_ecdsa_signature_parse_compact
          (toBigEndian 64 _signature) with
  | None => false
  | Some rawSig =>
      match secp256k1_ec_pubkey_parse (toBigEndian 33 _key) with
      | None => false
      | Some rawPubkey => secp256k1_ecdsa_verify rawSig _hash rawPubkey
      end
  end.

End CommonKeys.

(** A small curve whose serializer honours the flags: a compressed key is
    the header [0x02] and the point in 32 bytes; a signature verifies when
    its second half is the point. *)
Definition demo_curve : Secp256k1 := {|
  secp256k1_pubkey := Z;
  secp256k1_ecdsa_recoverable_signature := Z * Z * Z;
  secp256k1_ec_pubkey_create k :=
    if bool_decide (0 < k < c_secp256k1n) then Some k else None;
  secp256k1_ec_pubkey_serialize P flags :=
    match flags with
    | SECP256K1_EC_UNCOMPRESSED => x04 :: toBigEndian 64 P
    | SECP256K1_EC_COMPRESSED => x02 :: toBigEndian 32 P
    end;
  secp256k1_ecdsa_sign_recoverable _ k :=
    if bool_decide (0 < k < c_secp256k1n) then Some (1, k, 0) else None;
  secp256k1_ecdsa_recoverable_signature_serialize_compact sig := sig;
  secp256k1_ecdsa_recoverable_signature_parse_compact r s v :=
    if bool_decide (0 ≤ r < c_secp256k1n ∧ 0 ≤ s < c_secp256k1n ∧ 0 ≤ v ≤ 3)
    then Some (r, s, v) else None;
  secp256k1_ecdsa_recover sig _ :=
    if bool_decide (0 < sig.1.2 < c_secp256k1n)
    then Some (if Z.odd sig.2 then c_secp256k1n - sig.1.2 else sig.1.2)
    else None
|}.

Definition demo_curve_keys : Secp256k1Keys (CURVE := demo_curve) :=
  Build_Secp256k1Keys demo_curve
    (0 : Z) (Z * Z)%type
    (fun bs =>
       match bs with
       | hd :: body =>
           if bool_decide (hd = x02
                           ∧ 0 < fromBigEndian body < c_secp256k1n
                           ∧ length body = 32%nat)
           then Some (fromBigEndian body) else None
       | [] => None
       end)
    (fun bs => Some (fromBigEndian (take 32 bs), fromBigEndian (drop 32 bs)))
    (fun sig _ P => bool_decide (sig.2 = P)).

(** ** EC.cpp *)

(** [ECIES<ECP>::Encryptor] and [Decryptor] of Crypto++, initialized with
    a public or a secret key.  [Encrypt] gives the bytes it writes to the
    ciphertext buffer, for the randomness it draws from the generator;
    [Decrypt] gives the message it writes to the plaintext buffer, or
    [None] for the invalid [DecodingResult], whose [messageLength] is 0. *)
Class CryptoPP_ECIES : Type := {
  CiphertextLength : nat → nat;
  MaxPlaintextLength : nat → nat;
  Encrypt : Public → Z → bytes → bytes;
  Decrypt : Secret → bytes → option bytes
}.

(** A buffer after [data] has been written at its start. *)
Definition write_into (buffer data : bytes) : bytes :=
  take (length buffer) (data ++ drop (length data) buffer).

Module crypto.

Section EC.

Context {ECIES : CryptoPP_ECIES}.

(** [crypto::encrypt]; [rng] is what the encryptor draws from
    [pp::PRNG]. *)
Definition encrypt (_key : Public) (rng : Z) (io_cipher : bytes) : bytes :=
  let plen := length io_cipher in
  let c := replicate (CiphertextLength plen) x00 in
  let c := write_into c (Encrypt _key rng io_cipher) in
  let io_cipher := replicate (length io_cipher) x00 in
  let io_cipher := c in
  io_cipher.

(** [crypto::decrypt]. *)
Definition decrypt (_k : Secret) (io_text : bytes) : checked bytes :=
  let clen := length io_text in
  let p := replicate (MaxPlaintextLength (length io_text)) x00 in
  let '(messageLength, p) :=
    match Decrypt _k io_text with
    | Some message => (length message, write_into p message)
    | None => (0%nat, p)
    end in
  checked_bind (assert (bool_decide (messageLength ≠ 0%nat)))
    (fun _ =>
       let io_text :=
         take messageLength (io_text ++ replicate messageLength x00) in
       let io_text := p in
       Done io_text).

End EC.

End crypto.

(** An encryption that puts one byte before the message. *)
Definition demo_ecies : CryptoPP_ECIES := {|
  CiphertextLength n := S n;
  MaxPlaintextLength n := pred n;
  Encrypt _ _ message := x04 :: message;
  Decrypt _ text :=
    match text with
    | hd :: message => if bool_decide (hd = x04) then Some message else None
    | [] => None
    end
|}.

(** ** Bytes, big-endian values and hex text *)

Lemma byte_to_Z_range (b : byte) : 0 ≤ byte_to_Z b < 256.
Proof.
  unfold byte_to_Z. pose proof (Byte.to_N_bounded b). lia.
Qed.

Lemma byte_of_to_Z (b : byte) : byte_of_Z (byte_to_Z b) = b.
Proof.
  unfold byte_of_Z. pose proof (byte_to_Z_range b) as Hb.
  rewrite Z.mod_small by done. unfold byte_to_Z.
  by rewrite N2Z.id, Byte.of_to_N.
Qed.

Lemma byte_to_of_Z (z : Z) : byte_to_Z (byte_of_Z z) = z mod 256.
Proof.
  unfold byte_of_Z, byte_to_Z.
  pose proof (Z.mod_pos_bound z 256 eq_refl) as Hz.
  destruct (Byte.of_N (Z.to_N (z mod 256))) as [y|] eqn:Hy; simpl.
  - apply Byte.to_of_N in Hy. rewrite Hy. lia.
  - pose proof (Byte.to_of_N_option_map (Z.to_N (z mod 256))) as Hm.
    rewrite Hy in Hm. simpl in Hm.
    destruct (N.leb_spec (Z.to_N (z mod 256)) 255); [done | lia].
Qed.

Lemma byte_of_Z_mod (z : Z) : byte_of_Z (z mod 256) = byte_of_Z z.
Proof. unfold byte_of_Z. by rewrite Z.mod_mod. Qed.

Lemma length_toBigEndian (n : nat) (z : Z) : length (toBigEndian n z) = n.
Proof.
  revert z. induction n as [|n IH]; intros z; simpl; [done|].
  rewrite length_app, IH. simpl. lia.
Qed.

Lemma fromBigEndian_snoc (bs : bytes) (b : byte) :
  fromBigEndian (bs ++ [b]) = fromBigEndian bs * 256 + byte_to_Z b.
Proof. unfold fromBigEndian. by rewrite fold_left_app. Qed.

Lemma fromBigEndian_toBigEndian (n : nat) (z : Z) :
  fromBigEndian (toBigEndian n z) = z mod 2 ^ (8 * Z.of_nat n).
Proof.
  revert z. induction n as [|n IH]; intros z.
  - simpl. by rewrite Z.mod_1_r.
  - simpl toBigEndian. rewrite fromBigEndian_snoc, IH, byte_to_of_Z.
    replace (8 * Z.of_nat (S n)) with (8 + 8 * Z.of_nat n) by lia.
    rewrite Z.pow_add_r by lia. change (2 ^ 8) with 256.
    rewrite (Z.rem_mul_r z 256 (2 ^ (8 * Z.of_nat n))) by lia. lia.
Qed.

Lemma fromBigEndian_range (bs : bytes) :
  0 ≤ fromBigEndian bs < 2 ^ (8 * Z.of_nat (length bs)).
Proof.
  induction bs as [|b bs IH] using rev_ind.
  - simpl. unfold fromBigEndian. simpl. lia.
  - rewrite fromBigEndian_snoc, length_app. simpl.
    pose proof (byte_to_Z_range b).
    replace (8 * Z.of_nat (length bs + 1)) with (8 * Z.of_nat (length bs) + 8)
      by lia.
    rewrite Z.pow_add_r by lia. change (2 ^ 8) with 256. lia.
Qed.

Lemma toBigEndian_fromBigEndian (bs : bytes) :
  toBigEndian (length bs) (fromBigEndian bs) = bs.
Proof.
  induction bs as [|b bs IH] using rev_ind; [done|].
  rewrite length_app. simpl. rewrite Nat.add_1_r. simpl.
  rewrite fromBigEndian_snoc. pose proof (byte_to_Z_range b).
  replace ((fromBigEndian bs * 256 + byte_to_Z b) / 256) with (fromBigEndian bs)
    by (apply Z.div_unique with (byte_to_Z b); lia).
  rewrite IH. f_equal. f_equal.
  rewrite <- byte_of_Z_mod.
  replace ((fromBigEndian bs * 256 + byte_to_Z b) mod 256) with (byte_to_Z b)
    by (apply Z.mod_unique with (fromBigEndian bs); lia).
  apply byte_of_to_Z.
Qed.

Lemma toBigEndian_zero (n : nat) : toBigEndian n 0 = replicate n x00.
Proof.
  induction n as [|n IH]; [done|].
  simpl toBigEndian. rewrite Z.div_0_l by lia. rewrite IH.
  change (byte_of_Z 0) with x00.
  change [x00] with (replicate 1 x00).
  rewrite <- replicate_add. by rewrite Nat.add_1_r.
Qed.

Lemma fromHex_char_hexchar (n : Z) :
  0 ≤ n < 16 → fromHex_char (hexchar n) = Some n.
Proof.
  intros Hn.
  assert (n ∈ [0;1;2;3;4;5;6;7;8;9;10;11;12;13;14;15]) as Hin.
  { rewrite !elem_of_cons. lia. }
  rewrite !elem_of_cons in Hin. rewrite elem_of_nil in Hin.
  repeat (destruct Hin as [-> | Hin]; [reflexivity|]). done.
Qed.

Lemma fromHex_pairs_toHex (bs : bytes) :
  fromHex_pairs (mjoin (toHex_byte <$> bs)) = Some bs.
Proof.
  induction bs as [|b bs IH]; [done|].
  simpl. unfold fmap in IH. pose proof (byte_to_Z_range b) as Hb.
  rewrite !fromHex_char_hexchar, IH.
  - f_equal. f_equal. rewrite <- (byte_of_to_Z b) at 3. f_equal.
    rewrite (Z.div_mod (byte_to_Z b) 16) at 3 by lia. lia.
  - apply Z.mod_pos_bound. lia.
  - split; [apply Z.div_pos; lia | apply Z.div_lt_upper_bound; lia].
Qed.

Lemma length_toHex_even (bs : bytes) :
  Nat.odd (length (mjoin (toHex_byte <$> bs))) = false.
Proof.
  induction bs as [|b bs IH]; [done|].
  simpl. by rewrite Nat.odd_succ, Nat.even_succ.
Qed.

Lemma hexchar_not_x (n : Z) : 0 ≤ n < 16 → hexchar n ≠ "x"%char.
Proof.
  intros Hn.
  assert (n ∈ [0;1;2;3;4;5;6;7;8;9;10;11;12;13;14;15]) as Hin.
  { rewrite !elem_of_cons. lia. }
  rewrite !elem_of_cons in Hin. rewrite elem_of_nil in Hin.
  repeat (destruct Hin as [-> | Hin]; [by vm_compute|]). done.
Qed.

Lemma fromHex_toHex (bs : bytes) : fromHex (toHex bs) = bs.
Proof.
  unfold fromHex, toHex. rewrite String.list_ascii_of_string_of_list_ascii.
  assert (match mjoin (toHex_byte <$> bs) with
          | "0"%char :: "x"%char :: rest => rest
          | _ => mjoin (toHex_byte <$> bs)
          end = mjoin (toHex_byte <$> bs)) as ->.
  { destruct bs as [|b bs]; [done|]. simpl.
    pose proof (hexchar_not_x (byte_to_Z b mod 16)
                  (Z.mod_pos_bound _ 16 eq_refl)) as Hx.
    destruct (hexchar (byte_to_Z b / 16)) as [[] [] [] [] [] [] [] []]; try done.
    destruct (hexchar (byte_to_Z b mod 16)) as [[] [] [] [] [] [] [] []]; done. }
  by rewrite length_toHex_even, fromHex_pairs_toHex.
Qed.

(** ** Common.cpp: signatures *)

Lemma s_max_is_order : SignatureStruct.s_max = c_secp256k1n.
Proof. reflexivity. Qed.

(** C7, as the specification states it, fails: with the constant printed
    there, a signature whose [r] is the group order would be valid, and
    [isValid] rejects it. *)
Lemma isValid_spec_constant_counterexample :
  let sig := SignatureStruct.mk c_secp256k1n 1 0 in
  SignatureStruct.wf sig
  ∧ (SignatureStruct.v sig ≤ 1
     ∧ 0 < SignatureStruct.r sig < SignatureStruct.spec_hex_order
     ∧ 0 < SignatureStruct.s sig < SignatureStruct.spec_hex_order)
  ∧ SignatureStruct.isValid sig = false.
Proof. vm_compute. intuition congruence. Qed.

(** C7 (amended): [isValid] holds exactly when [v <= 1], [0 < r < n] and
    [0 < s < n], where [n] is the group order
    [0xfffffffffffffffffffffffffffffffebaaedce6af48a03bbfd25e8cd0364141],
    the value of [c_secp256k1n]. *)
Theorem isValid_iff :
  c_secp256k1n
  = 0xfffffffffffffffffffffffffffffffebaaedce6af48a03bbfd25e8cd0364141
  ∧ ∀ sig : Signature,
      SignatureStruct.isValid sig = true
      ↔ SignatureStruct.v sig ≤ 1
        ∧ 0 < SignatureStruct.r sig < c_secp256k1n
        ∧ 0 < SignatureStruct.s sig < c_secp256k1n.
Proof.
  split; [reflexivity|]. intros [r s v].
  unfold SignatureStruct.isValid, SignatureStruct.s_zero. simpl.
  rewrite s_max_is_order, !andb_true_iff, !bool_decide_eq_true. lia.
Qed.

Lemma half_order_bounds (s : Z) :
  0 < s < c_secp256k1n →
  (s > c_secp256k1n / 2 → 0 < c_secp256k1n - s ≤ c_secp256k1n / 2)
  ∧ c_secp256k1n < 2 ^ 256.
Proof.
  intros Hs. change (c_secp256k1n / 2) with
    57896044618658097711785492504343953926418782139537452191302581570759080747168.
  unfold c_secp256k1n in *. split; [lia | done].
Qed.

Lemma lxor_1_recid (v : Z) :
  0 ≤ v ≤ 3 → 0 ≤ Z.lxor v 1 ≤ 3 ∧ (v ≤ 1 → Z.lxor v 1 = 1 - v).
Proof.
  intros Hv. assert (v = 0 ∨ v = 1 ∨ v = 2 ∨ v = 3) as Hc by lia.
  destruct Hc as [-> | [-> | [-> | ->]]];
    [change (Z.lxor 0 1) with 1 | change (Z.lxor 1 1) with 0
    | change (Z.lxor 2 1) with 3 | change (Z.lxor 3 1) with 2]; lia.
Qed.

Section CommonProperties.

Context {CURVE : Secp256k1} {KECCAK : Keccak}.

(** *** The contract of libsecp256k1 *)

(** A valid secret key has a public key, an invalid one has none (the
    comment of [toPublicKey]: creation fails if the secret key is
    invalid). *)
Hypothesis pubkey_create_valid : ∀ k,
  0 < k < c_secp256k1n → is_Some (secp256k1_ec_pubkey_create k).
Hypothesis pubkey_create_invalid : ∀ k,
  k = 0 ∨ c_secp256k1n ≤ k → secp256k1_ec_pubkey_create k = None.

(** The uncompressed form of a public key: the header [0x04] and 64
    bytes. *)
Hypothesis pubkey_serialize_uncompressed : ∀ P,
  ∃ body, secp256k1_ec_pubkey_serialize P SECP256K1_EC_UNCOMPRESSED
          = x04 :: body
          ∧ length body = 64%nat.

(** Signing with a valid key succeeds; [r] is a 32-byte value, [s] a
    non-zero scalar and the recovery id one of 0, 1, 2, 3. *)
Hypothesis sign_recoverable_valid : ∀ hash k,
  0 < k < c_secp256k1n → is_Some (secp256k1_ecdsa_sign_recoverable hash k).
Hypothesis sign_compact_range : ∀ hash k rawSig r s v,
  0 < k < c_secp256k1n →
  secp256k1_ecdsa_sign_recoverable hash k = Some rawSig →
  secp256k1_ecdsa_recoverable_signature_serialize_compact rawSig = (r, s, v) →
  0 ≤ r < 2 ^ 256 ∧ 0 < s < c_secp256k1n ∧ 0 ≤ v ≤ 3.

(** The recovery id of a signature is the parity bit alone when its second
    bit, set when the x-coordinate of the nonce point is not below the
    group order, is clear.  The library does not promise this (a recovery
    id is in 0..3), and of the theorems below only the one on [isValid]
    assumes it. *)
Hypothesis sign_recid_parity : ∀ hash k rawSig r s v,
  0 < k < c_secp256k1n →
  secp256k1_ecdsa_sign_recoverable hash k = Some rawSig →
  secp256k1_ecdsa_recoverable_signature_serialize_compact rawSig = (r, s, v) →
  v ≤ 1.

(** Recovery from a signature that the library produced gives the public
    key of the signing key. *)
Hypothesis recover_sign_recoverable : ∀ hash k rawSig r s v,
  0 < k < c_secp256k1n →
  secp256k1_ecdsa_sign_recoverable hash k = Some rawSig →
  secp256k1_ecdsa_recoverable_signature_serialize_compact rawSig = (r, s, v) →
  ∃ rawSig',
    secp256k1_ecdsa_recoverable_signature_parse_compact r s v = Some rawSig'
    ∧ secp256k1_ecdsa_recover rawSig' hash = secp256k1_ec_pubkey_create k.

(** ECDSA recovery does not tell [(r, s, recid)] from
    [(r, n - s, recid xor 1)]: negating [s] and the nonce point together
    leaves the recovered key unchanged. *)
Hypothesis recover_negate : ∀ hash r s v rawSig,
  0 < s < c_secp256k1n → 0 ≤ v ≤ 3 →
  secp256k1_ecdsa_recoverable_signature_parse_compact r s v = Some rawSig →
  ∃ rawSig',
    secp256k1_ecdsa_recoverable_signature_parse_compact
      r (c_secp256k1n - s) (Z.lxor v 1) = Some rawSig'
    ∧ secp256k1_ecdsa_recover rawSig' hash
      = secp256k1_ecdsa_recover rawSig hash.

(** *** What [sign] returns *)

(** The signature that [sign] builds from what the library returns: [s]
    and [v] as they are when [s] is low, [n - s] and [v xor 1] when [s] is
    high. *)
Lemma sign_normalizes (k hash : Z) rawSig r s v :
  0 < k < c_secp256k1n →
  secp256k1_ecdsa_sign_recoverable hash k = Some rawSig →
  secp256k1_ecdsa_recoverable_signature_serialize_compact rawSig = (r, s, v) →
  sign k hash
  = Done (if bool_decide (s > c_secp256k1n / 2)
          then SignatureStruct.mk r (c_secp256k1n - s) (Z.lxor v 1)
          else SignatureStruct.mk r s v).
Proof.
  intros Hk Hsign Hser. unfold sign. rewrite Hsign, Hser.
  destruct (sign_compact_range _ _ _ _ _ _ Hk Hsign Hser) as (Hr & Hs & Hv).
  destruct (half_order_bounds s Hs) as [Hhalf Hn].
  destruct (lxor_1_recid v Hv) as [Hx _].
  cbn [SignatureStruct.s SignatureStruct.r SignatureStruct.v].
  rewrite (Z.mod_small v 256) by lia.
  destruct (decide (s > c_secp256k1n / 2)) as [Hhigh | Hlow].
  - rewrite (bool_decide_eq_true_2 (s > c_secp256k1n / 2)) by done.
    specialize (Hhalf Hhigh).
    rewrite (Z.mod_small (c_secp256k1n - s)) by lia.
    rewrite (Z.mod_small (Z.lxor v 1)) by lia.
    cbn [SignatureStruct.s].
    rewrite bool_decide_eq_true_2 by lia. done.
  - rewrite (bool_decide_eq_false_2 (s > c_secp256k1n / 2)) by done.
    cbn [SignatureStruct.s].
    rewrite bool_decide_eq_true_2 by lia. done.
Qed.

(** C1 (amended): [sign] applies low-S normalization to what the
    recoverable-ECDSA primitive produces: a high [s] is replaced by
    [n - s] and [v] by [v xor 1], and a low [s] is returned with [r] and
    [v] as produced.  The signature returned has [s <= n/2]; its [v] is in
    0..3, and is 0 or 1 exactly when the recovery id of the primitive is:
    [sign] does not mask it. *)
Theorem sign_low_s (k hash : Z) :
  0 < k < c_secp256k1n →
  ∃ rawSig r s v,
    secp256k1_ecdsa_sign_recoverable hash k = Some rawSig
    ∧ secp256k1_ecdsa_recoverable_signature_serialize_compact rawSig
      = (r, s, v)
    ∧ sign k hash
      = Done (if bool_decide (s > c_secp256k1n / 2)
              then SignatureStruct.mk r (c_secp256k1n - s) (Z.lxor v 1)
              else SignatureStruct.mk r s v)
    ∧ ∀ sig, sign k hash = Done sig →
        SignatureStruct.s sig ≤ c_secp256k1n / 2
        ∧ 0 ≤ SignatureStruct.v sig ≤ 3
        ∧ (SignatureStruct.v sig ≤ 1 ↔ v ≤ 1).
Proof.
  intros Hk.
  destruct (sign_recoverable_valid hash k Hk) as [rawSig Hsign].
  destruct (secp256k1_ecdsa_recoverable_signature_serialize_compact rawSig)
    as [[r s] v] eqn:Hser.
  destruct (sign_compact_range _ _ _ _ _ _ Hk Hsign Hser) as (Hr & Hs & Hv).
  destruct (half_order_bounds s Hs) as [Hhalf _].
  assert (v = 0 ∨ v = 1 ∨ v = 2 ∨ v = 3) as Hcases by lia.
  exists rawSig, r, s, v. split; [done|]. split; [done|].
  pose proof (sign_normalizes _ _ _ _ _ _ Hk Hsign Hser) as Hrun.
  split; [exact Hrun|].
  intros sig. rewrite Hrun. intros [= <-].
  destruct (decide (s > c_secp256k1n / 2)) as [Hhigh | Hlow].
  - rewrite (bool_decide_eq_true_2 (s > c_secp256k1n / 2)) by done.
    cbn [SignatureStruct.s SignatureStruct.v].
    specialize (Hhalf Hhigh). split; [lia|].
    destruct Hcases as [-> | [-> | [-> | ->]]];
      [change (Z.lxor 0 1) with 1 | change (Z.lxor 1 1) with 0
      | change (Z.lxor 2 1) with 3 | change (Z.lxor 3 1) with 2]; lia.
  - rewrite (bool_decide_eq_false_2 (s > c_secp256k1n / 2)) by done.
    cbn [SignatureStruct.s SignatureStruct.v]. lia.
Qed.

(** *** Recovery of the signer *)

Lemma recover_of_parsed (sig : Signature) (hash : Z) rawSig P body :
  SignatureStruct.v sig ≤ 3 →
  secp256k1_ecdsa_recoverable_signature_parse_compact
    (SignatureStruct.r sig) (SignatureStruct.s sig) (SignatureStruct.v sig)
  = Some rawSig →
  secp256k1_ecdsa_recover rawSig hash = Some P →
  secp256k1_ec_pubkey_serialize P SECP256K1_EC_UNCOMPRESSED = x04 :: body →
  length body = 64%nat →
  recover sig hash = Done (fromBigEndian body).
Proof.
  intros Hv Hparse Hrec Hser Hlen. unfold recover.
  rewrite bool_decide_eq_false_2 by lia.
  rewrite Hparse, Hrec, Hser. simpl.
  rewrite bool_decide_eq_true_2 by (f_equal; lia). simpl.
  unfold Public_skipping_header. simpl.
  rewrite drop_0, take_ge by lia. done.
Qed.

Lemma toPublic_valid (k : Z) P body :
  secp256k1_ec_pubkey_create k = Some P →
  secp256k1_ec_pubkey_serialize P SECP256K1_EC_UNCOMPRESSED = x04 :: body →
  length body = 64%nat →
  toPublic k = Done (fromBigEndian body).
Proof.
  intros Hc Hser Hlen. unfold toPublic, toPublicKey. rewrite Hc, Hser. simpl.
  rewrite bool_decide_eq_true_2 by (f_equal; lia). simpl.
  unfold Public_skipping_header. simpl.
  rewrite drop_0, take_ge by lia. done.
Qed.

(** C2: for a secret in (0, n) and any hash, recovering from the signature
    that [sign] returns gives [toPublic] of the secret, which is the 64
    bytes that follow the [0x04] header of the uncompressed public key. *)
Theorem recover_sign (k hash : Z) :
  0 < k < c_secp256k1n →
  checked_bind (sign k hash) (λ sig, recover sig hash) = toPublic k
  ∧ ∃ P body,
      secp256k1_ec_pubkey_create k = Some P
      ∧ secp256k1_ec_pubkey_serialize P SECP256K1_EC_UNCOMPRESSED
        = x04 :: body
      ∧ length body = 64%nat
      ∧ toPublic k = Done (fromBigEndian body).
Proof.
  intros Hk.
  destruct (pubkey_create_valid k Hk) as [P HP].
  destruct (pubkey_serialize_uncompressed P) as (body & Hser & Hlen).
  pose proof (toPublic_valid k P body HP Hser Hlen) as Hpub.
  split; [|by exists P, body].
  destruct (sign_recoverable_valid hash k Hk) as [rawSig Hsign].
  destruct (secp256k1_ecdsa_recoverable_signature_serialize_compact rawSig)
    as [[r s] v] eqn:Hcompact.
  destruct (sign_compact_range _ _ _ _ _ _ Hk Hsign Hcompact) as (Hr & Hs & Hv).
  destruct (recover_sign_recoverable _ _ _ _ _ _ Hk Hsign Hcompact)
    as (raw1 & Hparse & Hrec).
  rewrite (sign_normalizes _ _ _ _ _ _ Hk Hsign Hcompact), Hpub. simpl.
  rewrite HP in Hrec.
  case_bool_decide as Hhigh.
  - destruct (recover_negate hash r s v raw1 Hs Hv Hparse)
      as (raw2 & Hparse2 & Hrec2).
    rewrite Hrec in Hrec2.
    apply (recover_of_parsed _ _ raw2 P body); simpl; try done.
    destruct (lxor_1_recid v Hv). lia.
  - apply (recover_of_parsed _ _ raw1 P body); simpl; try done. lia.
Qed.

(** *** Addresses of invalid secrets *)

Lemma right160_bytes (h : Z) :
  toBigEndian 20 (right160 h) = drop 12 (toBigEndian 32 h).
Proof.
  unfold right160.
  assert (length (drop 12 (toBigEndian 32 h)) = 20%nat) as Hlen.
  { by rewrite length_drop, length_toBigEndian. }
  rewrite <- Hlen at 1. apply toBigEndian_fromBigEndian.
Qed.

(** C10: for an invalid secret (zero, or not below n) [toAddress] neither
    fails nor returns a sentinel: [toPublic] is the all-zero [Public], and
    the address is the rightmost 20 bytes of the Keccak-256 hash of 64 zero
    bytes, the same for every invalid secret. *)
Theorem toAddress_invalid_secret (k : Z) :
  k = 0 ∨ c_secp256k1n ≤ k →
  toPublic k = Done 0
  ∧ toBigEndian 64 0 = replicate 64 x00
  ∧ ∃ a, toAddress k = Done a
         ∧ toBigEndian 20 a
           = drop 12 (toBigEndian 32 (sha3 (replicate 64 x00))).
Proof.
  intros Hk. pose proof (pubkey_create_invalid k Hk) as Hc.
  assert (toPublic k = Done 0) as Hpub.
  { unfold toPublic, toPublicKey. by rewrite Hc. }
  split; [done|]. split; [apply toBigEndian_zero|].
  unfold toAddress. rewrite Hpub. cbn [checked_bind].
  exists (toAddress_Public 0). split; [done|].
  unfold toAddress_Public. by rewrite right160_bytes, toBigEndian_zero.
Qed.

(** *** Validity of what [sign] returns *)

(** The [r] of a signature that the library produces is a non-zero
    scalar. *)
Hypothesis sign_compact_r_range : ∀ hash k rawSig r s v,
  0 < k < c_secp256k1n →
  secp256k1_ecdsa_sign_recoverable hash k = Some rawSig →
  secp256k1_ecdsa_recoverable_signature_serialize_compact rawSig = (r, s, v) →
  0 < r < c_secp256k1n.


(** *** [verify] of a public key *)

(** The public key of a secret is a point of the curve, and the point with
    both coordinates zero is not on it. *)
Hypothesis pubkey_nonzero : ∀ k P body,
  secp256k1_ec_pubkey_create k = Some P →
  secp256k1_ec_pubkey_serialize P SECP256K1_EC_UNCOMPRESSED = x04 :: body →
  fromBigEndian body ≠ 0.

Lemma recover_sign_valid (k hash : Z) P body :
  0 < k < c_secp256k1n →
  secp256k1_ec_pubkey_create k = Some P →
  secp256k1_ec_pubkey_serialize P SECP256K1_EC_UNCOMPRESSED = x04 :: body →
  length body = 64%nat →
  ∃ sig, sign k hash = Done sig ∧ recover sig hash = Done (fromBigEndian body).
Proof.
  intros Hk HP Hser Hlen.
  destruct (sign_recoverable_valid hash k Hk) as [rawSig Hsign].
  destruct (secp256k1_ecdsa_recoverable_signature_serialize_compact rawSig)
    as [[r s] v] eqn:Hcompact.
  destruct (sign_compact_range _ _ _ _ _ _ Hk Hsign Hcompact) as (Hr & Hs & Hv).
  destruct (recover_sign_recoverable _ _ _ _ _ _ Hk Hsign Hcompact)
    as (raw1 & Hparse & Hrec).
  rewrite HP in Hrec.
  eexists. split; [apply (sign_normalizes _ _ _ _ _ _ Hk Hsign Hcompact)|].
  case_bool_decide as Hhigh.
  - destruct (recover_negate hash r s v raw1 Hs Hv Hparse)
      as (raw2 & Hparse2 & Hrec2).
    rewrite Hrec in Hrec2.
    apply (recover_of_parsed _ _ raw2 P body); simpl; try done.
    destruct (lxor_1_recid v Hv). lia.
  - apply (recover_of_parsed _ _ raw1 P body); simpl; try done. lia.
Qed.

(** X2: for a secret in (0, n) and any hash, [verify] accepts the signature
    that [sign] returns under the public key that [toPublic] returns. *)
Theorem verify_sign (k hash : Z) :
  0 < k < c_secp256k1n →
  checked_bind (toPublic k)
    (λ p, checked_bind (sign k hash) (λ sig, verify p sig hash))
  = Done true.
Proof.
  intros Hk.
  destruct (pubkey_create_valid k Hk) as [P HP].
  destruct (pubkey_serialize_uncompressed P) as (body & Hser & Hlen).
  rewrite (toPublic_valid k P body HP Hser Hlen).
  destruct (recover_sign_valid k hash P body Hk HP Hser Hlen)
    as (sig & -> & Hrec).
  cbn [checked_bind]. unfold verify. rewrite Hrec.
  rewrite bool_decide_eq_false_2 by (by apply (pubkey_nonzero k P)).
  cbn [checked_bind]. by rewrite bool_decide_eq_true_2.
Qed.

(** X3: [verify] accepts only a non-zero public key that [recover] returns
    for the signature: the recovery id is at most 3, the library parsed the
    signature and recovered a key, and the public key is the 64 bytes
    after the header of its uncompressed form.  The all-zero key is
    rejected for every signature, also for one from which nothing is
    recovered. *)
Theorem verify_accepts (p : Z) (sig : Signature) (hash : Z) :
  (verify p sig hash = Done true →
   p ≠ 0 ∧ recover sig hash = Done p ∧ SignatureStruct.v sig ≤ 3
   ∧ ∃ rawSig P,
       secp256k1_ecdsa_recoverable_signature_parse_compact
         (SignatureStruct.r sig) (SignatureStruct.s sig)
         (SignatureStruct.v sig) = Some rawSig
       ∧ secp256k1_ecdsa_recover rawSig hash = Some P
       ∧ p = Public_skipping_header
               (secp256k1_ec_pubkey_serialize P SECP256K1_EC_UNCOMPRESSED))
  ∧ verify 0 sig hash = Done false.
Proof.
  split; [|done].
  unfold verify. case_bool_decide as Hp; [done|].
  destruct (recover sig hash) as [q|] eqn:Hrec; [|done].
  cbn [checked_bind]. intros Heq.
  assert (p = q) as <-.
  { by destruct (decide (p = q)); [|rewrite bool_decide_eq_false_2 in Heq]. }
  split; [done|]. split; [done|].
  unfold recover in Hrec. case_bool_decide as Hv; [by inversion Hrec|].
  split; [lia|].
  destruct (secp256k1_ecdsa_recoverable_signature_parse_compact _ _ _)
    as [rawSig|] eqn:Hparse; [|by inversion Hrec].
  destruct (secp256k1_ecdsa_recover rawSig hash) as [P|] eqn:HP;
    [|by inversion Hrec].
  exists rawSig, P. split; [done|]. split; [done|].
  destruct (assert (bool_decide (length _ = 65%nat))); [|done].
  cbn [checked_bind] in Hrec.
  destruct (assert (bool_decide (head _ = Some x04))); [|done].
  cbn [checked_bind] in Hrec. by inversion Hrec.
Qed.

(** *** Compressed keys *)

Context {KEYS : Secp256k1Keys}.

(** The compressed form of a public key is the header [0x02] or [0x03] and
    the 32 bytes of the x-coordinate; parsing the compressed form of a
    created key gives the key back, and 33 zero bytes are no key. *)
Hypothesis pubkey_serialize_compressed : ∀ P,
  ∃ hd body, secp256k1_ec_pubkey_serialize P SECP256K1_EC_COMPRESSED
             = hd :: body
             ∧ (hd = x02 ∨ hd = x03) ∧ length body = 32%nat.
Hypothesis pubkey_parse_serialize : ∀ k P,
  secp256k1_ec_pubkey_create k = Some P →
  secp256k1_ec_pubkey_parse
    (secp256k1_ec_pubkey_serialize P SECP256K1_EC_COMPRESSED) = Some P.
Hypothesis pubkey_parse_zero :
  secp256k1_ec_pubkey_parse (replicate 33 x00) = None.

Lemma toPublicCompressed_valid (k : Z) P :
  secp256k1_ec_pubkey_create k = Some P →
  toPublicCompressed k
  = Done (fromBigEndian
            (secp256k1_ec_pubkey_serialize P SECP256K1_EC_COMPRESSED))
  ∧ length (secp256k1_ec_pubkey_serialize P SECP256K1_EC_COMPRESSED)
    = 33%nat.
Proof.
  intros HP.
  destruct (pubkey_serialize_compressed P) as (hd & body & Hser & Hhd & Hlen).
  unfold toPublicCompressed, toPublicKey. rewrite HP, Hser.
  cbn [length]. rewrite Hlen.
  rewrite bool_decide_eq_true_2 by done. cbn [assert checked_bind head].
  rewrite bool_decide_eq_true_2 by (destruct Hhd as [-> | ->]; auto).
  done.
Qed.

(** X4: decompressing the compressed public key of a secret gives the
    public key of the secret, for every secret: the 64 bytes of the key
    for a valid one, the all-zero key for an invalid one. *)
Theorem toPublic_toPublicCompressed (k : Z) :
  checked_bind (toPublicCompressed k) toPublic_Compressed = toPublic k.
Proof.
  destruct (secp256k1_ec_pubkey_create k) as [P|] eqn:HP.
  - destruct (toPublicCompressed_valid k P HP) as [-> Hlen33].
    destruct (pubkey_serialize_uncompressed P) as (body & Hser & Hlen).
    rewrite (toPublic_valid k P body HP Hser Hlen).
    cbn [checked_bind]. unfold toPublic_Compressed.
    rewrite <- Hlen33 at 1. rewrite toBigEndian_fromBigEndian.
    rewrite (pubkey_parse_serialize k P HP), Hser. cbn [length].
    rewrite Hlen. rewrite bool_decide_eq_true_2 by done.
    cbn [assert checked_bind head].
    rewrite bool_decide_eq_true_2 by done. cbn [assert checked_bind].
    unfold Public_skipping_header. cbn [drop].
    rewrite drop_0, take_ge by lia. done.
  - unfold toPublicCompressed, toPublic, toPublicKey. rewrite HP.
    cbn [checked_bind]. unfold toPublic_Compressed.
    by rewrite toBigEndian_zero, pubkey_parse_zero.
Qed.

(** X5: the compressed key that [toPublicCompressed] returns for an invalid
    secret (zero, or not below n) is all-zero, and the [verify] of
    compressed keys rejects every signature and hash under it. *)
Theorem verify_Compressed_invalid_secret (k sig hash : Z) :
  k = 0 ∨ c_secp256k1n ≤ k →
  toPublicCompressed k = Done 0
  ∧ verify_Compressed 0 sig hash = false.
Proof.
  intros Hk. split.
  - unfold toPublicCompressed, toPublicKey.
    by rewrite (pubkey_create_invalid k Hk).
  - unfold verify_Compressed.
    destruct (secp256k1_ecdsa_signature_parse_compact _); [|done].
    by rewrite toBigEndian_zero, pubkey_parse_zero.
Qed.

(** X20: [recover] and [toPubkey] go the same way through the library:
    when [toPubkey] returns a key other than the all-zero one, [recover]
    returns the 64 bytes after the header of the uncompressed form of
    this key. *)
Theorem recover_toPubkey (sig : Signature) (hash : Z) :
  toPubkey sig hash ≠ secp256k1_pubkey_zero →
  recover sig hash
  = Done (Public_skipping_header
            (secp256k1_ec_pubkey_serialize (toPubkey sig hash)
               SECP256K1_EC_UNCOMPRESSED)).
Proof.
  unfold toPubkey, recover. intros Hne.
  case_bool_decide as Hv; [done|].
  destruct (secp256k1_ecdsa_recoverable_signature_parse_compact _ _ _)
    as [rawSig|]; [|done].
  destruct (secp256k1_ecdsa_recover rawSig hash) as [P|]; [|done].
  destruct (pubkey_serialize_uncompressed P) as (body & -> & Hlen).
  cbn [length head]. rewrite Hlen.
  by rewrite !bool_decide_eq_true_2 by done.
Qed.

End CommonProperties.

(** *** The contract holds in the small instance *)

Lemma demo_pubkey_create_valid (k : Z) :
  0 < k < c_secp256k1n →
  is_Some (secp256k1_ec_pubkey_create (Secp256k1 := demo_secp256k1) k).
Proof. intros Hk. simpl. rewrite bool_decide_eq_true_2 by done. eauto. Qed.

Lemma demo_pubkey_create_invalid (k : Z) :
  k = 0 ∨ c_secp256k1n ≤ k →
  secp256k1_ec_pubkey_create (Secp256k1 := demo_secp256k1) k = None.
Proof. intros Hk. simpl. rewrite bool_decide_eq_false_2; [done | lia]. Qed.

Lemma demo_pubkey_serialize_uncompressed
    (P : secp256k1_pubkey (Secp256k1 := demo_secp256k1)) :
  ∃ body,
    secp256k1_ec_pubkey_serialize (Secp256k1 := demo_secp256k1) P
      SECP256K1_EC_UNCOMPRESSED = x04 :: body
    ∧ length body = 64%nat.
Proof. eexists. split; [reflexivity|]. apply length_toBigEndian. Qed.

Lemma demo_sign_recoverable_valid (hash k : Z) :
  0 < k < c_secp256k1n →
  is_Some (secp256k1_ecdsa_sign_recoverable (Secp256k1 := demo_secp256k1)
             hash k).
Proof. intros Hk. simpl. rewrite bool_decide_eq_true_2 by done. eauto. Qed.

Lemma demo_sign_compact (hash k : Z) rawSig (r s v : Z) :
  0 < k < c_secp256k1n →
  secp256k1_ecdsa_sign_recoverable (Secp256k1 := demo_secp256k1) hash k
  = Some rawSig →
  secp256k1_ecdsa_recoverable_signature_serialize_compact
    (Secp256k1 := demo_secp256k1) rawSig = (r, s, v) →
  r = 1 ∧ s = k ∧ v = 0.
Proof.
  intros Hk. simpl. rewrite bool_decide_eq_true_2 by done.
  intros [= <-] [= <- <- <-]. done.
Qed.

Lemma demo_sign_compact_range (hash k : Z) rawSig (r s v : Z) :
  0 < k < c_secp256k1n →
  secp256k1_ecdsa_sign_recoverable (Secp256k1 := demo_secp256k1) hash k
  = Some rawSig →
  secp256k1_ecdsa_recoverable_signature_serialize_compact
    (Secp256k1 := demo_secp256k1) rawSig = (r, s, v) →
  0 ≤ r < 2 ^ 256 ∧ 0 < s < c_secp256k1n ∧ 0 ≤ v ≤ 3.
Proof.
  intros Hk Hsign Hser.
  destruct (demo_sign_compact _ _ _ _ _ _ Hk Hsign Hser) as (-> & -> & ->).
  lia.
Qed.


Lemma demo_recover_sign_recoverable (hash k : Z) rawSig (r s v : Z) :
  0 < k < c_secp256k1n →
  secp256k1_ecdsa_sign_recoverable (Secp256k1 := demo_secp256k1) hash k
  = Some rawSig →
  secp256k1_ecdsa_recoverable_signature_serialize_compact
    (Secp256k1 := demo_secp256k1) rawSig = (r, s, v) →
  ∃ rawSig',
    secp256k1_ecdsa_recoverable_signature_parse_compact
      (Secp256k1 := demo_secp256k1) r s v = Some rawSig'
    ∧ secp256k1_ecdsa_recover (Secp256k1 := demo_secp256k1) rawSig' hash
      = secp256k1_ec_pubkey_create (Secp256k1 := demo_secp256k1) k.
Proof.
  intros Hk Hsign Hser.
  destruct (demo_sign_compact _ _ _ _ _ _ Hk Hsign Hser) as (-> & -> & ->).
  exists (1, k, 0). simpl.
  rewrite !bool_decide_eq_true_2; [done | lia | unfold c_secp256k1n in *; lia].
Qed.

Lemma demo_recover_negate (hash r s v : Z) rawSig :
  0 < s < c_secp256k1n → 0 ≤ v ≤ 3 →
  secp256k1_ecdsa_recoverable_signature_parse_compact
    (Secp256k1 := demo_secp256k1) r s v = Some rawSig →
  ∃ rawSig',
    secp256k1_ecdsa_recoverable_signature_parse_compact
      (Secp256k1 := demo_secp256k1) r (c_secp256k1n - s) (Z.lxor v 1)
    = Some rawSig'
    ∧ secp256k1_ecdsa_recover (Secp256k1 := demo_secp256k1) rawSig' hash
      = secp256k1_ecdsa_recover (Secp256k1 := demo_secp256k1) rawSig hash.
Proof.
  intros Hs Hv. simpl. case_bool_decide as Hr; [|done]. intros [= <-].
  exists (r, c_secp256k1n - s, Z.lxor v 1). simpl.
  destruct (lxor_1_recid v Hv) as [Hx _].
  rewrite !bool_decide_eq_true_2 by lia. split; [done|]. f_equal.
  assert (v = 0 ∨ v = 1 ∨ v = 2 ∨ v = 3) as Hc by lia.
  destruct Hc as [-> | [-> | [-> | ->]]]; simpl; lia.
Qed.

(** C1, as the specification states it, fails: with a library that signs
    with the recovery id 2 (and for the rest keeps to its contract: it
    signs with every valid key, [s] is a non-zero scalar and the recovery
    id is in 0..3), the [v] of the signature that [sign] returns is 2. *)
Lemma sign_recid_counterexample :
  0 < 5 < c_secp256k1n
  ∧ (∀ hash k, 0 < k < c_secp256k1n →
       ∃ r s v,
         secp256k1_ecdsa_recoverable_signature_serialize_compact
           (Secp256k1 := demo_secp256k1_overflow) <$>
           secp256k1_ecdsa_sign_recoverable
             (Secp256k1 := demo_secp256k1_overflow) hash k
         = Some (r, s, v)
         ∧ 0 ≤ r < 2 ^ 256 ∧ 0 < s < c_secp256k1n ∧ 0 ≤ v ≤ 3)
  ∧ sign (CURVE := demo_secp256k1_overflow) 5 7
    = Done (SignatureStruct.mk 1 5 2)
  ∧ ¬ (SignatureStruct.v (SignatureStruct.mk 1 5 2) = 0
       ∨ SignatureStruct.v (SignatureStruct.mk 1 5 2) = 1).
Proof.
  split; [vm_compute; done|]. split; [|split; [by vm_compute|]].
  - intros hash k Hk. exists 1, k, 2. simpl.
    rewrite bool_decide_eq_true_2 by done. split; [done|]. lia.
  - simpl. lia.
Qed.

(** The instance at the secret [n - 1]: the library's [s = n - 1] is high,
    and [sign] returns [s = 1] with the parity bit flipped. *)
Lemma sign_low_s_witness :
  0 < c_secp256k1n - 1 < c_secp256k1n
  ∧ sign (CURVE := demo_secp256k1) (c_secp256k1n - 1) 7
    = Done (SignatureStruct.mk 1 1 1).
Proof.
  assert (0 < c_secp256k1n - 1 < c_secp256k1n) as Hk by (vm_compute; done).
  split; [exact Hk|].
  destruct (sign_low_s (CURVE := demo_secp256k1) demo_sign_recoverable_valid
              demo_sign_compact_range (c_secp256k1n - 1) 7 Hk)
    as (rawSig & r & s & v & Hsign & Hser & Hrun & _).
  destruct (demo_sign_compact _ _ _ _ _ _ Hk Hsign Hser) as (-> & -> & ->).
  rewrite Hrun. by vm_compute.
Defined.

Lemma recover_sign_witness :
  0 < c_secp256k1n - 1 < c_secp256k1n
  ∧ checked_bind (sign (CURVE := demo_secp256k1) (c_secp256k1n - 1) 7)
      (λ sig, recover (CURVE := demo_secp256k1) sig 7)
    = toPublic (CURVE := demo_secp256k1) (c_secp256k1n - 1).
Proof.
  assert (0 < c_secp256k1n - 1 < c_secp256k1n) as Hk by (vm_compute; done).
  split; [exact Hk|].
  apply (recover_sign (CURVE := demo_secp256k1) demo_pubkey_create_valid
           demo_pubkey_serialize_uncompressed demo_sign_recoverable_valid
           demo_sign_compact_range demo_recover_sign_recoverable
           demo_recover_negate (c_secp256k1n - 1) 7 Hk).
Defined.

Lemma toAddress_invalid_secret_witness :
  (c_secp256k1n = 0 ∨ c_secp256k1n ≤ c_secp256k1n)
  ∧ toPublic (CURVE := demo_secp256k1) c_secp256k1n = Done 0
  ∧ toPublic (CURVE := demo_secp256k1) 0 = Done 0.
Proof.
  split; [right; lia|]. split.
  - apply (toAddress_invalid_secret (CURVE := demo_secp256k1) (KECCAK := demo_keccak)
             demo_pubkey_create_invalid c_secp256k1n). right. lia.
  - apply (toAddress_invalid_secret (CURVE := demo_secp256k1) (KECCAK := demo_keccak)
             demo_pubkey_create_invalid 0). by left.
Defined.

(** ** SecretStore.cpp: the keystore codec *)

Ltac eff_unfold :=
  unfold cwarn in *; unfold emit, get_str, get_obj, get_int in *;
  unfold eff_bind, eff_ret, eff_throw, eff_modify, eff_get in *.

Section CodecProperties.

Context {JSON : JsonSpirit} {CRYPTO : SymmetricCrypto} {KECCAK : Keccak}.

(** *** The trace of [decrypt] *)

Lemma no_pass_call_ret {A} (a : A) : no_pass_call (eff_ret a).
Proof.
  intros l res l' [= <- <-]. exists []. split; [by rewrite app_nil_r|].
  apply not_elem_of_nil.
Qed.

Lemma no_pass_call_throw {A} (e : exn) : no_pass_call (eff_throw (A := A) e).
Proof.
  intros l res l' [= <- <-]. exists []. split; [by rewrite app_nil_r|].
  apply not_elem_of_nil.
Qed.

Lemma no_pass_call_emit (e : Event) : e ≠ EvPass → no_pass_call (emit e).
Proof.
  intros He l res l' [= <- <-]. exists [e]. split; [done|].
  rewrite list_elem_of_singleton. congruence.
Qed.

Lemma no_pass_call_bind {A B} (m : Eff (list Event) A)
    (k : A → Eff (list Event) B) :
  no_pass_call m → (∀ a, no_pass_call (k a)) → no_pass_call (eff_bind m k).
Proof.
  intros Hm Hk l res l' Hrun. unfold eff_bind in Hrun.
  destruct (m l) as [[a|e] l1] eqn:Hml.
  - destruct (Hm _ _ _ Hml) as (evs1 & -> & Hn1).
    destruct (Hk _ _ _ _ Hrun) as (evs2 & -> & Hn2).
    exists (evs1 ++ evs2). split; [by rewrite app_assoc|].
    rewrite elem_of_app. tauto.
  - injection Hrun as <- <-. eauto.
Qed.

Lemma no_pass_call_get_str (v : mValue) : no_pass_call (get_str v).
Proof.
  destruct v; first [apply no_pass_call_ret | apply no_pass_call_throw].
Qed.

Lemma no_pass_call_get_obj (v : mValue) : no_pass_call (get_obj v).
Proof.
  destruct v; first [apply no_pass_call_ret | apply no_pass_call_throw].
Qed.

Lemma no_pass_call_get_int (v : mValue) : no_pass_call (get_int v).
Proof.
  destruct v; first [apply no_pass_call_ret | apply no_pass_call_throw].
Qed.

Ltac no_pass_call_step :=
  first
    [ apply no_pass_call_ret
    | apply no_pass_call_get_str
    | apply no_pass_call_get_obj
    | apply no_pass_call_get_int
    | apply no_pass_call_emit; discriminate
    | apply no_pass_call_bind; [| intros ?]
    | case_bool_decide ].

Lemma decrypt_cipher_trace (o : mObject) (dk ct : bytes) :
  no_pass_call (decrypt_cipher o dk ct).
Proof. unfold decrypt_cipher, cwarn. repeat no_pass_call_step. Qed.

Lemma decrypt_with_key_trace (o : mObject) (dk : bytes) :
  no_pass_call (decrypt_with_key o dk).
Proof.
  unfold decrypt_with_key, cwarn.
  repeat first [apply decrypt_cipher_trace | no_pass_call_step].
Qed.

(** [decrypt] only adds to the trace, and never calls the passphrase
    callback. *)
Lemma decrypt_trace (_v : json_text) (_pass : string) :
  no_pass_call (decrypt _v _pass).
Proof.
  unfold decrypt, cwarn.
  repeat first [apply decrypt_with_key_trace | no_pass_call_step].
Qed.

(** *** The stages of [decrypt] *)

Lemma decrypt_derives_key (_v : json_text) (_pass : string) f l :
  has_fields _v f →
  decrypt _v _pass l = decrypt_with_key (kf_object f) (derived_key f _pass) l.
Proof.
  intros (params & Hread & Hkdf & Hparams & Hprf & Hc & Hsalt & Hdklen & _).
  unfold decrypt, derived_key. rewrite Hread. eff_unfold. cbv beta iota.
  rewrite Hkdf. cbv beta iota. rewrite bool_decide_eq_true_2 by done.
  rewrite Hparams. cbv beta iota. rewrite Hprf. cbv beta iota.
  rewrite bool_decide_eq_false_2 by (by intros []).
  by rewrite Hc, Hsalt, Hdklen.
Qed.

Lemma decrypt_with_key_checks_mac (_v : json_text) (_pass : string) f l :
  has_fields _v f →
  decrypt_with_key (kf_object f) (derived_key f _pass) l
  = if bool_decide (stored_mac f ≠ expected_mac f _pass)
    then (Ret [],
          l ++ [EvWarn (MacMismatch (expected_mac f _pass) (stored_mac f))])
    else decrypt_cipher (kf_object f) (derived_key f _pass)
           (fromHex (kf_ciphertext f)) l.
Proof.
  intros (params & _ & _ & _ & _ & _ & _ & _ & Hct & Hmac).
  unfold decrypt_with_key, stored_mac, expected_mac. eff_unfold.
  rewrite Hct, Hmac. cbv beta iota. by case_bool_decide.
Qed.



(** *** The text that [encrypt] writes *)

Hypothesis read_write_string : ∀ v pretty old,
  read_string (write_string v pretty) old = (true, v).

Hypothesis sha3_range : ∀ bs, 0 ≤ sha3 bs < 2 ^ 256.

Hypothesis pbkdf2_length : ∀ _pass _salt _iterations _dkLen,
  0 ≤ _dkLen →
  length (pbkdf2 _pass _salt _iterations _dkLen) = Z.to_nat _dkLen.

Lemma FixedHash_of_hex_toHex (N : nat) (z : Z) :
  0 ≤ z < 2 ^ (8 * Z.of_nat N) →
  FixedHash_of_hex N (toHex (toBigEndian N z)) = z.
Proof.
  intros Hz. unfold FixedHash_of_hex, FixedHash_of_bytes.
  rewrite fromHex_toHex.
  rewrite bool_decide_eq_true_2 by apply length_toBigEndian.
  rewrite fromBigEndian_toBigEndian. by apply Z.mod_small.
Qed.

Lemma cropped_last_16 (dk : bytes) :
  (16 ≤ length dk)%nat → Z.of_nat (length dk) < 2 ^ 64 →
  cropped dk (size_t_sub (Z.of_nat (length dk)) 16) = drop (length dk - 16) dk.
Proof.
  intros Hlen Hsmall. unfold cropped, size_t_sub.
  rewrite Z.mod_small by lia.
  rewrite bool_decide_eq_true_2 by lia. f_equal. lia.
Qed.


(** The values that [encrypt] computes on its way. *)
Lemma encrypt_object_mac (_v : bytes) (_pass : string) (salt iv : Z) :
  let derivedKey := pbkdf2 _pass (toBigEndian 32 salt) 262144 16 in
  let key :=
    FixedHash_AlignRight 16
      (sha3 (toBigEndian 16 (FixedHash_of_bytes 16 derivedKey AlignRight))) in
  let cipherText := encryptSymNoAuth key iv _v in
  let mac :=
    sha3 (cropped derivedKey (size_t_sub (Z.of_nat (length derivedKey)) 16)
          ++ cipherText) in
  encrypt_object _v _pass salt iv
  = <["mac" := str_type (toHex (toBigEndian 32 mac))]>
      (encrypt_object _v _pass salt iv).
Proof.
  cbv zeta. unfold encrypt_object at 1. cbv zeta.
  unfold encrypt_object. cbv zeta. by rewrite insert_insert_eq.
Qed.

Ltac member_insert :=
  unfold member;
  repeat (rewrite lookup_insert_ne by (intros [=]));
  rewrite lookup_insert_eq; reflexivity.

(** The text that [encrypt] writes, its ["mac"] replaced by any [m],
    reads back with the members that [decrypt] needs. *)
Lemma encrypt_has_fields (_v : bytes) (_pass : string) (salt iv : Z)
    (m : string) :
  let derivedKey := pbkdf2 _pass (toBigEndian 32 salt) 262144 16 in
  let key :=
    FixedHash_AlignRight 16
      (sha3 (toBigEndian 16 (FixedHash_of_bytes 16 derivedKey AlignRight))) in
  let cipherText := encryptSymNoAuth key iv _v in
  let o := <["mac" := str_type m]> (encrypt_object _v _pass salt iv) in
  has_fields (write_string (obj_type o) true)
    (mkFields o 262144 (toHex (toBigEndian 32 salt)) 16 (toHex cipherText) m)
  ∧ member o "cipher" = str_type "aes-128-cbc"
  ∧ ∃ params : mObject,
      member o "cipherparams" = obj_type params
      ∧ member params "iv" = str_type (toHex (toBigEndian 16 iv)).
Proof.
  cbv zeta. unfold encrypt_object. cbv zeta. split; [|split].
  - eexists. rewrite read_write_string. cbn [snd kf_object kf_c kf_salt
      kf_dklen kf_ciphertext kf_mac].
    split; [reflexivity|].
    split; [member_insert|]. split; [member_insert|].
    split; [member_insert|]. split; [member_insert|].
    split; [member_insert|]. split; [member_insert|].
    split; member_insert.
  - member_insert.
  - eexists. split; member_insert.
Qed.

Lemma to_unsigned_to_int (i : Z) :
  0 ≤ i < 2 ^ 31 → to_unsigned (to_int i) = i.
Proof.
  intros Hi. unfold to_unsigned, to_int.
  rewrite (Z.mod_small (i + 2 ^ 31)) by lia.
  rewrite Z.mod_small by lia. lia.
Qed.

Lemma decrypt_cipher_aes (o params : mObject) (dk ct : bytes) (iv : Z) l :
  0 ≤ iv < 2 ^ 128 →
  member o "cipher" = str_type "aes-128-cbc" →
  member o "cipherparams" = obj_type params →
  member params "iv" = str_type (toHex (toBigEndian 16 iv)) →
  let key :=
    FixedHash_AlignRight 16
      (sha3 (toBigEndian 16 (FixedHash_of_bytes 16 dk AlignRight))) in
  decrypt_cipher o dk ct l
  = (Ret (decryptSymNoAuth key iv ct), l ++ [EvDecryptSym key iv ct]).
Proof.
  intros Hiv Hcipher Hparams Hivs. unfold decrypt_cipher. eff_unfold.
  rewrite Hcipher. cbv beta iota. rewrite bool_decide_eq_true_2 by done.
  rewrite Hparams. cbv beta iota. rewrite Hivs. cbv beta iota.
  by rewrite (FixedHash_of_hex_toHex 16 iv) by done.
Qed.


(** C4 (amended): when the MAC stored in a JSON text differs from the one
    recomputed under the passphrase, [decrypt] returns the empty byte
    sequence and all it adds to the trace is the warning: the AES
    decryption does not run.  This is what happens to the text written by
    [encrypt] under a passphrase whose MAC differs from the one of the
    passphrase it was written with (that the passphrases differ is not
    enough). *)
Theorem decrypt_mac_mismatch :
  (∀ (_v : json_text) (_pass : string) f l,
     has_fields _v f →
     stored_mac f ≠ expected_mac f _pass →
     decrypt _v _pass l
     = (Ret [],
        l ++ [EvWarn (MacMismatch (expected_mac f _pass) (stored_mac f))]))
  ∧ (∀ (_v : bytes) (_pass _pass' : string) (salt iv : Z) l,
       let derivedKey := pbkdf2 _pass (toBigEndian 32 salt) 262144 16 in
       let key :=
         FixedHash_AlignRight 16
           (sha3 (toBigEndian 16
                    (FixedHash_of_bytes 16 derivedKey AlignRight))) in
       let cipherText := encryptSymNoAuth key iv _v in
       let mac :=
         sha3 (drop (length derivedKey - 16) derivedKey ++ cipherText) in
       let derivedKey' := pbkdf2 _pass' (toBigEndian 32 salt) 262144 16 in
       let mac' :=
         sha3 (drop (length derivedKey' - 16) derivedKey' ++ cipherText) in
       mac ≠ mac' →
       decrypt (encrypt _v _pass salt iv) _pass' l
       = (Ret [], l ++ [EvWarn (MacMismatch mac' mac)])).
Proof.
  split.
  - intros _v _pass f l Hfields Hne.
    rewrite (decrypt_derives_key _ _ _ _ Hfields).
    rewrite (decrypt_with_key_checks_mac _ _ _ _ Hfields).
    by rewrite bool_decide_eq_true_2.
  - intros _v _pass _pass' salt iv l derivedKey key cipherText mac
      derivedKey' mac' Hne.
    assert (∀ dk : bytes, length dk = 16%nat →
              cropped dk (size_t_sub (Z.of_nat (length dk)) 16)
              = drop (length dk - 16) dk) as Hcrop.
    { intros dk Hlen. apply cropped_last_16; rewrite Hlen; [done | lia]. }
    assert (length derivedKey = 16%nat) as Hlen.
    { unfold derivedKey. by rewrite pbkdf2_length. }
    assert (length derivedKey' = 16%nat) as Hlen'.
    { unfold derivedKey'. by rewrite pbkdf2_length. }
    pose proof (encrypt_object_mac _v _pass salt iv) as Hobj.
    cbv zeta in Hobj. fold derivedKey in Hobj. fold key in Hobj.
    fold cipherText in Hobj. rewrite (Hcrop _ Hlen) in Hobj. fold mac in Hobj.
    unfold encrypt. rewrite Hobj.
    destruct (encrypt_has_fields _v _pass salt iv
                (toHex (toBigEndian 32 mac))) as (Hfields & _).
    cbv zeta in Hfields. fold derivedKey key cipherText in Hfields.
    rewrite (decrypt_derives_key _ _ _ _ Hfields).
    rewrite (decrypt_with_key_checks_mac _ _ _ _ Hfields).
    unfold stored_mac, expected_mac, derived_key.
    cbn [kf_object kf_c kf_salt kf_dklen kf_ciphertext kf_mac].
    rewrite !fromHex_toHex, !to_unsigned_to_int by lia.
    fold derivedKey'. rewrite (Hcrop _ Hlen'). fold mac'.
    rewrite FixedHash_of_hex_toHex by apply sha3_range.
    by rewrite bool_decide_eq_true_2.
Qed.

(** *** Decryption of what [encrypt] writes *)

Lemma decrypt_encrypt_run (_v : bytes) (_pass : string) (salt iv : Z) l :
  0 ≤ iv < 2 ^ 128 →
  let derivedKey := pbkdf2 _pass (toBigEndian 32 salt) 262144 16 in
  let key :=
    FixedHash_AlignRight 16
      (sha3 (toBigEndian 16 (FixedHash_of_bytes 16 derivedKey AlignRight))) in
  let cipherText := encryptSymNoAuth key iv _v in
  decrypt (encrypt _v _pass salt iv) _pass l
  = (Ret (decryptSymNoAuth key iv cipherText),
     l ++ [EvDecryptSym key iv cipherText]).
Proof.
  intros Hiv derivedKey key cipherText.
  pose proof (encrypt_object_mac _v _pass salt iv) as Hobj. cbv zeta in Hobj.
  fold derivedKey in Hobj. fold key in Hobj. fold cipherText in Hobj.
  unfold encrypt. rewrite Hobj.
  match type of Hobj with
  | _ = <["mac" := str_type ?m]> _ =>
      destruct (encrypt_has_fields _v _pass salt iv m)
        as (Hfields & Hcipher & params & Hparams & Hivs)
  end.
  cbv zeta in Hfields. fold derivedKey key cipherText in Hfields.
  rewrite (decrypt_derives_key _ _ _ _ Hfields).
  rewrite (decrypt_with_key_checks_mac _ _ _ _ Hfields).
  unfold stored_mac, expected_mac, derived_key.
  cbn [kf_object kf_c kf_salt kf_dklen kf_ciphertext kf_mac].
  rewrite !fromHex_toHex, !to_unsigned_to_int by lia.
  fold derivedKey.
  rewrite FixedHash_of_hex_toHex by apply sha3_range.
  rewrite bool_decide_eq_false_2 by (intros Hne; by apply Hne).
  by apply (decrypt_cipher_aes _ params).
Qed.

(** AES decryption undoes AES encryption under the same key and
    initialization vector. *)
Hypothesis decryptSymNoAuth_encryptSymNoAuth : ∀ k iv plain,
  decryptSymNoAuth k iv (encryptSymNoAuth k iv plain) = plain.

(** X6: [decrypt] gives back, under the same passphrase, the bytes that
    [encrypt] was given, whatever the salt and the initialization vector
    drawn; all it adds to the trace is one run of the AES decryption. *)
Theorem decrypt_encrypt (_v : bytes) (_pass : string) (salt iv : Z) l :
  0 ≤ iv < 2 ^ 128 →
  ∃ key cipherText,
    decrypt (encrypt _v _pass salt iv) _pass l
    = (Ret _v, l ++ [EvDecryptSym key iv cipherText]).
Proof.
  intros Hiv. pose proof (decrypt_encrypt_run _v _pass salt iv l Hiv) as Hrun.
  cbv zeta in Hrun.
  rewrite decryptSymNoAuth_encryptSymNoAuth in Hrun. eauto.
Qed.

(** *** What [decrypt] refuses *)

Lemma trace_no_event (l evs : list Event) : l = l ++ evs → evs = [].
Proof.
  intros H. rewrite <- (app_nil_r l) in H at 1.
  by apply app_inv_head in H.
Qed.

Ltac decrypt_stops H Hin :=
  injection H as _ H;
  first [apply trace_no_event in H | apply app_inv_head in H];
  subst;
  first [by apply elem_of_nil in Hin
        | by apply list_elem_of_singleton in Hin].

Ltac destruct_member_stops H Hin :=
  match type of H with
  | context [member ?o ?k] =>
      let E := fresh "Hm" in
      destruct (member o k) eqn:E; cbv beta iota in H;
      try (decrypt_stops H Hin)
  end.

(** X7: the AES decryption runs only on a text that has passed the MAC
    check: when [decrypt] adds a run of it to the trace, the MAC stored in
    the text is the one recomputed under the passphrase, that run is all
    [decrypt] adds, and its result is what [decrypt] returns. *)
Theorem decrypt_aes_verified (_v : json_text) (_pass : string) l res evs
    key iv cipherText :
  decrypt _v _pass l = (res, l ++ evs) →
  EvDecryptSym key iv cipherText ∈ evs →
  mac_verified _v _pass
  ∧ res = Ret (decryptSymNoAuth key iv cipherText)
  ∧ evs = [EvDecryptSym key iv cipherText].
Proof.
  unfold decrypt, decrypt_with_key, decrypt_cipher. intros Hrun Hin.
  eff_unfold.
  destruct ((read_string _v null_type).2) as [| | | | |o] eqn:Hread;
    cbv beta iota in Hrun; try (decrypt_stops Hrun Hin).
  destruct_member_stops Hrun Hin.
  case_bool_decide as Hkdf; cbv beta iota in Hrun;
    [|decrypt_stops Hrun Hin]. subst.
  destruct_member_stops Hrun Hin. destruct_member_stops Hrun Hin.
  case_bool_decide as Hprf; cbv beta iota in Hrun;
    [decrypt_stops Hrun Hin|]. subst.
  do 5 destruct_member_stops Hrun Hin.
  case_bool_decide as Hmac; cbv beta iota in Hrun;
    [decrypt_stops Hrun Hin|].
  split.
  { match goal with
    | Hc : member _ "c" = int_type ?c, Hs : member _ "salt" = str_type ?s,
      Hd : member _ "dklen" = int_type ?d,
      Ht : member _ "ciphertext" = str_type ?t,
      Hm : member _ "mac" = str_type ?m |- _ =>
        exists (mkFields o c s d t m)
    end.
    split; [eexists; repeat split; eassumption | exact Hmac]. }
  destruct_member_stops Hrun Hin.
  case_bool_decide as Hcipher; cbv beta iota in Hrun;
    [|decrypt_stops Hrun Hin].
  do 2 destruct_member_stops Hrun Hin.
  injection Hrun as <- Hrun. apply app_inv_head in Hrun. subst evs.
  apply list_elem_of_singleton in Hin. by injection Hin as -> -> ->.
Qed.

(** X8: what [decrypt] does with a text it does not support.  A text whose
    [kdf] member is missing makes it throw; a key derivation other than
    [pbkdf2], a pseudo-random function other than [hmac-sha256] and, once
    the MAC is verified, a cipher other than [aes-128-cbc] each make it
    return the empty bytes, with one warning as all that is added to the
    trace. *)
Theorem decrypt_unsupported (_v : json_text) (_pass : string) (o : mObject) l :
  (read_string _v null_type).2 = obj_type o →
  (o !! "kdf" = None → decrypt _v _pass l = (Throw json_runtime_error, l))
  ∧ (∀ kdf, member o "kdf" = str_type kdf → kdf ≠ "pbkdf2" →
       decrypt _v _pass l = (Ret [], l ++ [EvWarn (UnknownKDF kdf)]))
  ∧ (∀ params prf,
       member o "kdf" = str_type "pbkdf2" →
       member o "kdfparams" = obj_type params →
       member params "prf" = str_type prf → prf ≠ "hmac-sha256" →
       decrypt _v _pass l = (Ret [], l ++ [EvWarn (UnknownPRF prf)]))
  ∧ (∀ f cipher,
       has_fields _v f → stored_mac f = expected_mac f _pass →
       member (kf_object f) "cipher" = str_type cipher →
       cipher ≠ "aes-128-cbc" →
       decrypt _v _pass l = (Ret [], l ++ [EvWarn (UnknownCipher cipher)])).
Proof.
  intros Hread. split; [|split; [|split]].
  - intros Hnone. unfold decrypt. rewrite Hread. eff_unfold.
    cbv beta iota. unfold member. by rewrite Hnone.
  - intros kdf Hkdf Hne. unfold decrypt. rewrite Hread. eff_unfold.
    cbv beta iota. rewrite Hkdf. cbv beta iota.
    by rewrite bool_decide_eq_false_2.
  - intros params prf Hkdf Hparams Hprf Hne. unfold decrypt.
    rewrite Hread. eff_unfold. cbv beta iota. rewrite Hkdf. cbv beta iota.
    rewrite bool_decide_eq_true_2 by done.
    rewrite Hparams. cbv beta iota. rewrite Hprf. cbv beta iota.
    by rewrite bool_decide_eq_true_2.
  - intros f cipher Hfields Hmac Hcipher Hne.
    rewrite (decrypt_derives_key _ _ _ _ Hfields).
    rewrite (decrypt_with_key_checks_mac _ _ _ _ Hfields).
    rewrite bool_decide_eq_false_2 by (intros Hn; by apply Hn).
    unfold decrypt_cipher. eff_unfold. rewrite Hcipher. cbv beta iota.
    by rewrite bool_decide_eq_false_2.
Qed.

End CodecProperties.

(** ** SecretStore.cpp: the store *)

Section StoreProperties.

Context {JSON : JsonSpirit} {CRYPTO : SymmetricCrypto} {KECCAK : Keccak}.
Context {FS : FileSystem}.

Lemma log_run {A} (m : Eff (list Event) A) (w : World) res l :
  m (trace w) = (res, l) →
  log m w = (res, mkWorld (m_keys w) (m_cached w) (files w) l).
Proof. intros Hm. unfold log. by rewrite Hm. Qed.


(** *** The invariant *)

(** [secret] leaves [m_keys] alone and adds to the cache, if anything, the
    UUID it was asked for, and this only when the UUID is in [m_keys]. *)
Lemma secret_maps (_uuid : Z) (_pass : unit → string) (w : World) :
  m_keys (secret _uuid _pass w).2 = m_keys w
  ∧ (m_cached (secret _uuid _pass w).2 = m_cached w
     ∨ ∃ key, m_cached (secret _uuid _pass w).2 = <[_uuid := key]> (m_cached w)
              ∧ is_Some (m_keys w !! _uuid)).
Proof.
  unfold secret, call_pass, log. eff_unfold.
  destruct (m_cached w !! _uuid) as [cached|]; [by auto|].
  destruct (m_keys w !! _uuid) as [it|] eqn:Hk; [|by auto].
  cbn [trace set_trace m_keys m_cached files].
  destruct (decrypt it.1 (_pass tt) (trace w ++ [EvPass])) as [[key|e] l'];
    cbn [trace set_trace m_keys m_cached files snd]; [|by auto].
  case_bool_decide; simpl; [|by auto].
  split; [done|]. right. exists key. split; [done | by eexists].
Qed.

Lemma eff_for_invariant {S A} (P : S → Prop) (body : A → Eff S unit)
    (l : list A) (s : S) :
  (∀ x s, P s → P (body x s).2) → P s → P (eff_for l body s).2.
Proof.
  intros Hbody. revert s. induction l as [|x l IH]; intros s Hs; [done|].
  simpl. unfold eff_bind. specialize (Hbody x s Hs).
  destruct (body x s) as [[[]|e] s']; simpl in *; [by apply IH | done].
Qed.

Lemma save_entry_maps (p : string) (k : Z * (json_text * string)) (w : World) :
  m_cached (save_entry p k w).2 = m_cached w
  ∧ dom (m_keys (save_entry p k w).2) = dom (m_keys w).
Proof.
  unfold save_entry, writeFile, fs_remove, log. eff_unfold.
  cbv beta iota zeta. case_bool_decide; simpl; by rewrite dom_alter_L.
Qed.

Lemma key_version_state {S} (o : mObject) (s : S) :
  (key_version o s).2 = s.
Proof.
  unfold key_version. eff_unfold.
  case_bool_decide; [|case_bool_decide; [|done]].
  - destruct (member o "Version"); try done. cbv beta iota.
    by destruct (stoi _).
  - by destruct (member o "version").
Qed.

Lemma load_object_maps (o : mObject) (path : string) (w : World) :
  m_cached (load_object o path w).2 = m_cached w
  ∧ dom (m_keys w) ⊆ dom (m_keys (load_object o path w).2).
Proof.
  assert (∀ res w', load_object o path w = (res, w') →
            m_cached w' = m_cached w ∧ dom (m_keys w) ⊆ dom (m_keys w'))
    as Hgen.
  { intros res w'. unfold load_object, eff_bind at 1.
    pose proof (key_version_state o w) as Hs.
    destruct (key_version o w) as [[version|e] w1]; simpl in Hs; subst w1.
    - case_bool_decide.
      + eff_unfold. destruct (member o "id") as [|id| | | |];
          try (by intros [= <- <-]).
        destruct (fromUUID id); intros [= <- <-]; [|done].
        simpl. rewrite dom_insert_L. set_solver.
      + unfold log. eff_unfold. by intros [= <- <-].
    - by intros [= <- <-]. }
  destruct (load_object o path w) as [res w'] eqn:Hl. by eapply Hgen.
Qed.

Lemma load_files_maps (entries : list (string * json_text)) (v : mValue)
    (w : World) :
  m_cached (load_files entries v w).2 = m_cached w
  ∧ dom (m_keys w) ⊆ dom (m_keys (load_files entries v w).2).
Proof.
  revert v w. induction entries as [|e rest IH]; intros v w; [done|].
  simpl. unfold eff_bind.
  set (v' := (read_string e.2 v).2).
  assert (∃ res w1,
    match v' with
    | obj_type o => load_object o e.1
    | _ => eff_ret tt
    end w = (res, w1)
    ∧ m_cached w1 = m_cached w ∧ dom (m_keys w) ⊆ dom (m_keys w1))
    as (res & w1 & -> & Hc & Hk).
  { destruct v' as [| | | | |o]; try (by eexists _, _).
    destruct (load_object o e.1 w) as [res w1] eqn:Hl.
    pose proof (load_object_maps o e.1 w) as Hm. rewrite Hl in Hm.
    by exists res, w1. }
  destruct res as [[]|ex]; [|done].
  destruct (IH v' w1) as [Hc' Hk']. split; [congruence | set_solver].
Qed.

Lemma create_directories_run (p : string) (w : World) :
  create_directories p w
  = (if can_create_directories p (files w) then Ret tt
     else Throw filesystem_error, w).
Proof.
  unfold create_directories. eff_unfold.
  by destruct (can_create_directories p (files w)).
Qed.

(** C9: every operation of the store takes a state in which each UUID of
    the cache is a UUID of [m_keys] to such a state. *)
Theorem cache_subset_keys_preserved (default_keysPath : string) (w : World) :
  cache_subset_keys w →
  (∀ _uuid _pass, cache_subset_keys (secret _uuid _pass w).2)
  ∧ (∀ _s _pass r salt iv,
       cache_subset_keys
         (importSecret default_keysPath _s _pass r salt iv w).2)
  ∧ (∀ _uuid, cache_subset_keys (kill _uuid w).2)
  ∧ cache_subset_keys (clearCache w).2
  ∧ (∀ _keysPath, cache_subset_keys (save _keysPath w).2)
  ∧ (∀ _keysPath, cache_subset_keys (load _keysPath w).2).
Proof.
  unfold cache_subset_keys. intros Hinv.
  assert (∀ p w0, dom (m_cached w0) ⊆ dom (m_keys w0) →
                  dom (m_cached (save p w0).2) ⊆ dom (m_keys (save p w0).2))
    as Hsave.
  { intros p w0 H0. unfold save, eff_bind, eff_get.
    rewrite create_directories_run.
    destruct (can_create_directories p (files w0)); [|done].
    apply (eff_for_invariant
             (λ w', dom (m_cached w') ⊆ dom (m_keys w'))); [|done].
    intros k w' Hw'. destruct (save_entry_maps p k w') as [-> ->]. done. }
  repeat split.
  - intros _uuid _pass.
    destruct (secret_maps _uuid _pass w) as [-> [-> | (key & -> & Hk)]];
      [done|].
    rewrite dom_insert_L. apply elem_of_dom in Hk. set_solver.
  - intros _s _pass r salt iv. unfold importSecret. eff_unfold.
    cbv beta iota.
    set (w1 := set_keys _ (set_cached _ w)).
    assert (dom (m_cached w1) ⊆ dom (m_keys w1)) as H1.
    { unfold w1. simpl. rewrite !dom_insert_L. set_solver. }
    specialize (Hsave default_keysPath w1 H1).
    by destruct (save default_keysPath w1) as [[[]|e] w2].
  - intros _uuid. unfold kill, fs_remove, log. eff_unfold. simpl.
    destruct (m_keys w !! _uuid) as [it|] eqn:Hk; simpl.
    + rewrite !dom_delete_L. set_solver.
    + rewrite dom_delete_L. set_solver.
  - unfold clearCache. eff_unfold. simpl. set_solver.
  - intros p. by apply Hsave.
  - intros p. unfold load, eff_bind, eff_get.
    rewrite create_directories_run.
    destruct (can_create_directories p (files w)); [|done].
    destruct (load_files_maps (directory_iterator (files w) p) null_type w)
      as [-> Hk]. set_solver.
Qed.

End StoreProperties.

(** ** SecretStore.cpp: the key files *)

Section KeyFileProperties.

Context {JSON : JsonSpirit} {FS : FileSystem}.

Lemma key_version_run {S} (o : mObject) (version : Z) (s : S) :
  version_field o version → key_version o s = (Ret version, s).
Proof.
  intros [(str & Hv & Hstoi)
         | [(Hcap & i & Hlow & ->) | (Hcap & Hlow & ->)]];
    unfold key_version.
  - rewrite bool_decide_eq_true_2 by (by rewrite Hv).
    unfold member. rewrite Hv. eff_unfold. simpl. by rewrite Hstoi.
  - rewrite bool_decide_eq_false_2 by (rewrite Hcap; by intros [? ?]).
    rewrite bool_decide_eq_true_2 by (by rewrite Hlow).
    unfold member. by rewrite Hlow.
  - rewrite bool_decide_eq_false_2 by (rewrite Hcap; by intros [? ?]).
    by rewrite bool_decide_eq_false_2 by (rewrite Hlow; by intros [? ?]).
Qed.


(** *** What [save] writes *)

Lemma save_entry_run (p : string) (k : Z * (json_text * string)) (w : World) :
  ∃ w' evs,
    save_entry p k w = (Ret tt, w')
    ∧ trace w'
      = trace w
        ++ EvWriteFile (path_append p (toUUID k.1) +:+ ".json")
             (write_string (obj_type (key_file_object k 2)) true) :: evs.
Proof.
  unfold save_entry, writeFile, fs_remove, log. eff_unfold.
  cbv beta iota zeta. case_bool_decide; simpl.
  - eexists _, [_]. split; [reflexivity|]. simpl.
    by rewrite <- app_assoc.
  - eexists _, []. split; reflexivity.
Qed.

Lemma eff_for_save_entry (p : string) (l : list (Z * (json_text * string)))
    (w : World) :
  ∃ w' evs,
    eff_for l (save_entry p) w = (Ret tt, w')
    ∧ trace w' = trace w ++ evs
    ∧ ∀ k, k ∈ l →
        EvWriteFile (path_append p (toUUID k.1) +:+ ".json")
          (write_string (obj_type (key_file_object k 2)) true) ∈ evs.
Proof.
  revert w. induction l as [|k l IH]; intros w.
  - exists w, []. split; [done|]. split; [by rewrite app_nil_r|].
    intros k Hk. by apply elem_of_nil in Hk.
  - destruct (save_entry_run p k w) as (w1 & evs1 & Hrun & Htr).
    destruct (IH w1) as (w2 & evs2 & Hrun2 & Htr2 & Hin).
    exists w2, ((EvWriteFile (path_append p (toUUID k.1) +:+ ".json")
                   (write_string (obj_type (key_file_object k 2)) true)
                 :: evs1) ++ evs2).
    split; [|split].
    + simpl. unfold eff_bind. by rewrite Hrun.
    + rewrite Htr2, Htr. by rewrite <- app_assoc.
    + intros k' [-> | Hk']%elem_of_cons.
      * apply elem_of_app. left. apply list_elem_of_here.
      * apply elem_of_app. right. by apply Hin.
Qed.

(** C6 (amended): for every entry of the store, [save] writes to
    [<keysPath>/<uuid>.json] a JSON object with the members ["crypto"]
    (what the stored text reads as), ["id"] (the UUID) and ["version"],
    the integer 2, once [create_directories] has returned (when it throws,
    [save] throws with it, before the first write). *)
Theorem save_writes_version_2 (_keysPath : string) (w : World) (uuid : Z)
    (json : json_text) (backingPath : string) :
  m_keys w !! uuid = Some (json, backingPath) →
  let o := key_file_object (uuid, (json, backingPath)) 2 in
  (can_create_directories _keysPath (files w) = true →
   (save _keysPath w).1 = Ret tt
   ∧ EvWriteFile (path_append _keysPath (toUUID uuid) +:+ ".json")
       (write_string (obj_type o) true)
     ∈ trace (save _keysPath w).2)
  ∧ member o "version" = int_type 2
  ∧ member o "id" = str_type (toUUID uuid)
  ∧ member o "crypto" = (read_string json null_type).2.
Proof.
  intros Hk o. split.
  - intros Hdir. unfold save, eff_bind, eff_get.
    rewrite create_directories_run, Hdir.
    destruct (eff_for_save_entry _keysPath
                (merge_sort key_le (map_to_list (m_keys w))) w)
      as (w' & evs & Hrun & Htr & Hin).
    rewrite Hrun. simpl. split; [done|].
    rewrite Htr. apply elem_of_app. right.
    apply (Hin (uuid, (json, backingPath))).
    rewrite merge_sort_Permutation. by apply elem_of_map_to_list.
  - unfold o, key_file_object, member. simpl.
    rewrite lookup_insert_eq.
    rewrite lookup_insert_ne by (intros [=]). rewrite lookup_insert_eq.
    do 2 rewrite lookup_insert_ne by (intros [=]). by rewrite lookup_insert_eq.
Qed.

End KeyFileProperties.

(** ** SecretStore.cpp: the operations of the store *)

Lemma hexchar_not_hyphen (n : Z) : 0 ≤ n < 16 → hexchar n ≠ "-"%char.
Proof.
  intros Hn.
  assert (n ∈ [0;1;2;3;4;5;6;7;8;9;10;11;12;13;14;15]) as Hin.
  { rewrite !elem_of_cons. lia. }
  rewrite !elem_of_cons in Hin. rewrite elem_of_nil in Hin.
  repeat (destruct Hin as [-> | Hin]; [by vm_compute|]). done.
Qed.

Lemma toHex_no_hyphen (bs : bytes) :
  Forall (λ c, c ≠ "-"%char) (mjoin (toHex_byte <$> bs)).
Proof.
  induction bs as [|b bs IH]; [by constructor|].
  pose proof (byte_to_Z_range b) as Hb.
  simpl. constructor; [|constructor; [|exact IH]].
  - apply hexchar_not_hyphen.
    split; [apply Z.div_pos; lia | apply Z.div_lt_upper_bound; lia].
  - apply hexchar_not_hyphen. apply Z.mod_pos_bound. lia.
Qed.

Lemma filter_Forall_id {A} (P : A → Prop) `{!∀ x, Decision (P x)}
    (l : list A) :
  Forall P l → filter P l = l.
Proof.
  induction 1 as [|x l Hx _ IH]; [done|].
  by rewrite filter_cons_True, IH.
Qed.

Lemma uuid_groups_join {A} (h : list A) :
  take 8 h ++ take 4 (drop 8 h) ++ take 4 (drop 12 h) ++ take 4 (drop 16 h)
  ++ drop 20 h = h.
Proof.
  replace (drop 20 h) with (drop 4 (drop 16 h)) by (by rewrite drop_drop).
  rewrite take_drop.
  replace (drop 16 h) with (drop 4 (drop 12 h)) by (by rewrite drop_drop).
  rewrite take_drop.
  replace (drop 12 h) with (drop 4 (drop 8 h)) by (by rewrite drop_drop).
  by rewrite !take_drop.
Qed.

Lemma FixedHash_of_hex_toUUID (u : Z) :
  0 ≤ u < 2 ^ 128 →
  FixedHash_of_hex 16
    (String.string_of_list_ascii
       (filter (λ c, c ≠ "-"%char) (String.list_ascii_of_string (toUUID u))))
  = u.
Proof.
  intros Hu. unfold toUUID, toHex.
  rewrite !String.list_ascii_of_string_of_list_ascii.
  pose proof (toHex_no_hyphen (toBigEndian 16 u)) as Hh.
  set (h := mjoin (toHex_byte <$> toBigEndian 16 u)) in *.
  assert (∀ l1 l2 : list ascii,
            Forall (λ c, c ≠ "-"%char) l1 →
            filter (λ c, c ≠ "-"%char) (l1 ++ "-"%char :: l2)
            = l1 ++ filter (λ c, c ≠ "-"%char) l2) as Hstep.
  { intros l1 l2 H1. rewrite filter_app, filter_cons_False by (by intros ?).
    by rewrite filter_Forall_id. }
  rewrite !Hstep by (by apply Forall_take, Forall_drop || by apply Forall_take).
  rewrite filter_Forall_id by (by apply Forall_drop).
  rewrite uuid_groups_join.
  unfold h. fold (toHex (toBigEndian 16 u)).
  unfold FixedHash_of_hex, FixedHash_of_bytes.
  rewrite fromHex_toHex.
  rewrite bool_decide_eq_true_2 by apply length_toBigEndian.
  rewrite fromBigEndian_toBigEndian. by apply Z.mod_small.
Qed.

(** [fromUUID] reads what [toUUID] writes. *)
Lemma fromUUID_toUUID (u : Z) :
  0 ≤ u < 2 ^ 128 → fromUUID (toUUID u) = Some u.
Proof.
  intros Hu. unfold fromUUID. rewrite FixedHash_of_hex_toUUID by done.
  by rewrite bool_decide_eq_true_2.
Qed.

Section StoreBehaviour.

Context {JSON : JsonSpirit} {CRYPTO : SymmetricCrypto} {KECCAK : Keccak}.
Context {FS : FileSystem}.

(** *** [save] *)

(** One turn of the loop of [save]. *)
Lemma save_entry_world (p : string) (k : Z * (json_text * string))
    (w : World) :
  let filename := key_file p k.1 in
  let contents := write_string (obj_type (key_file_object k 2)) true in
  let stale := bool_decide (k.2.2 ≠ "" ∧ k.2.2 ≠ filename) in
  save_entry p k w
  = (Ret tt,
     mkWorld (alter (λ e, (e.1, filename)) k.1 (m_keys w)) (m_cached w)
       (if stale
        then delete (canonical k.2.2)
               (<[canonical filename := contents]> (files w))
        else <[canonical filename := contents]> (files w))
       (trace w ++ EvWriteFile filename contents
                   :: (if stale then [EvRemove k.2.2] else []))).
Proof.
  unfold save_entry, writeFile, fs_remove, log, key_file, key_file_object.
  eff_unfold. cbv beta iota zeta. case_bool_decide; simpl; [|done].
  by rewrite <- app_assoc.
Qed.

Lemma eff_for_save_entry_world (p : string)
    (l : list (Z * (json_text * string))) (w : World) :
  ∃ w' evs,
    eff_for l (save_entry p) w = (Ret tt, w')
    ∧ m_cached w' = m_cached w
    ∧ (∀ u, m_keys w' !! u
            = if bool_decide (u ∈ l.*1)
              then (λ e, (e.1, key_file p u)) <$> m_keys w !! u
              else m_keys w !! u)
    ∧ trace w' = trace w ++ evs
    ∧ ∀ ev, ev ∈ evs → ∃ k, k ∈ l ∧ save_event p k ev.
Proof.
  revert w. induction l as [|k l IH]; intros w.
  - exists w, []. split; [done|]. split; [done|]. split; [done|].
    split; [by rewrite app_nil_r|]. intros ev Hev.
    by apply elem_of_nil in Hev.
  - pose proof (save_entry_world p k w) as Hrun. cbv zeta in Hrun.
    set (w1 := mkWorld _ _ _ _) in Hrun.
    destruct (IH w1) as (w2 & evs2 & Hrun2 & Hc2 & Hk2 & Htr2 & Hev2).
    eexists w2, (_ :: _ ++ evs2).
    split; [simpl; unfold eff_bind; by rewrite Hrun|].
    split; [by rewrite Hc2|]. split; [|split].
    + intros u. rewrite Hk2. unfold w1. cbn [m_keys fmap list_fmap].
      destruct (decide (u = k.1)) as [-> | Hne].
      * rewrite lookup_alter_eq.
        rewrite (bool_decide_eq_true_2 (k.1 ∈ k.1 :: _))
          by apply list_elem_of_here.
        case_bool_decide; [|done].
        by destruct (m_keys w !! k.1).
      * rewrite lookup_alter_ne by done.
        case_bool_decide as Hin.
        -- rewrite bool_decide_eq_true_2; [done|].
           by apply list_elem_of_further.
        -- rewrite bool_decide_eq_false_2; [done|].
           rewrite elem_of_cons. by intros [? | ?].
    + rewrite Htr2. unfold w1. cbn [trace].
      rewrite <- app_assoc. reflexivity.
    + intros ev [-> | Hev]%elem_of_cons.
      * exists k. split; [apply list_elem_of_here | by left].
      * apply elem_of_app in Hev as [Hev | Hev].
        -- exists k. split; [apply list_elem_of_here|].
           case_bool_decide as Hstale; [|by apply elem_of_nil in Hev].
           apply list_elem_of_singleton in Hev as ->. right. tauto.
        -- destruct (Hev2 ev Hev) as (k' & Hk' & Hs).
           exists k'. split; [by apply list_elem_of_further | done].
Qed.

(** [save] when [create_directories] throws, and when it returns. *)
Lemma save_throws (p : string) (w : World) :
  can_create_directories p (files w) = false →
  save p w = (Throw filesystem_error, w).
Proof.
  intros Hdir. unfold save, eff_bind.
  by rewrite create_directories_run, Hdir.
Qed.

Lemma save_run (p : string) (w : World) :
  can_create_directories p (files w) = true →
  ∃ w' evs,
    save p w = (Ret tt, w')
    ∧ m_cached w' = m_cached w
    ∧ (∀ u, m_keys w' !! u = (λ e, (e.1, key_file p u)) <$> m_keys w !! u)
    ∧ trace w' = trace w ++ evs
    ∧ ∀ ev, ev ∈ evs →
        ∃ u e, m_keys w !! u = Some e ∧ save_event p (u, e) ev.
Proof.
  intros Hdir.
  destruct (eff_for_save_entry_world p
              (merge_sort key_le (map_to_list (m_keys w))) w)
    as (w' & evs & Hrun & Hc & Hk & Htr & Hev).
  exists w', evs. split.
  { unfold save, eff_bind, eff_get.
    by rewrite create_directories_run, Hdir. }
  split; [done|]. split; [|split; [done|]].
  - intros u. rewrite Hk. case_bool_decide as Hin; [done|].
    destruct (m_keys w !! u) as [e|] eqn:Hu; [|done].
    exfalso. apply Hin. apply list_elem_of_fmap. exists (u, e).
    split; [done|]. rewrite merge_sort_Permutation.
    by apply elem_of_map_to_list.
  - intros ev Hin. destruct (Hev ev Hin) as ([u e] & Hk' & Hs).
    exists u, e. split; [|done].
    rewrite merge_sort_Permutation in Hk'. by apply elem_of_map_to_list.
Qed.

(** X9: when [create_directories] throws, [save] throws with it and the
    store is as it was; when it returns, [save] returns and the backing
    path of every key becomes its key file in the directory saved to.  In
    both cases the cache and the UUIDs and texts of [m_keys] are as they
    were, and a second [save] to the same directory leaves [m_keys] as the
    first one left it. *)
Theorem save_keys (p : string) (w : World) :
  (can_create_directories p (files w) = false →
   save p w = (Throw filesystem_error, w))
  ∧ (can_create_directories p (files w) = true →
     (save p w).1 = Ret tt
     ∧ ∀ u, m_keys (save p w).2 !! u
            = (λ e, (e.1, key_file p u)) <$> m_keys w !! u)
  ∧ m_cached (save p w).2 = m_cached w
  ∧ (∀ u, fst <$> m_keys (save p w).2 !! u = fst <$> m_keys w !! u)
  ∧ m_keys (save p (save p w).2).2 = m_keys (save p w).2.
Proof.
  split; [apply save_throws|].
  destruct (can_create_directories p (files w)) eqn:Hdir.
  - destruct (save_run p w Hdir) as (w1 & evs & -> & Hc & Hk & _).
    cbn [fst snd]. split; [done|]. split; [done|]. split.
    { intros u. rewrite Hk. by destruct (m_keys w !! u). }
    destruct (can_create_directories p (files w1)) eqn:Hdir1.
    + destruct (save_run p w1 Hdir1) as (w2 & evs2 & -> & _ & Hk2 & _).
      cbn [snd]. apply map_eq. intros u. rewrite Hk2, Hk.
      by destruct (m_keys w !! u).
    + by rewrite (save_throws p w1 Hdir1).
  - rewrite (save_throws p w Hdir). cbn [fst snd].
    split; [done|]. split; [done|]. split; [done|].
    by rewrite (save_throws p w Hdir).
Qed.

(** X10: every event that [save] adds to the trace is, for a key of the
    store, the write of its key file or the removal of its former backing
    file, and a file is removed only when its path is not empty and is not
    the key file just written.  A second [save] to the same directory
    removes nothing. *)
Theorem save_events (p : string) (w : World) :
  ∃ evs evs',
    trace (save p w).2 = trace w ++ evs
    ∧ (∀ ev, ev ∈ evs →
         ∃ u e, m_keys w !! u = Some e ∧ save_event p (u, e) ev)
    ∧ trace (save p (save p w).2).2 = trace (save p w).2 ++ evs'
    ∧ ∀ q, EvRemove q ∉ evs'.
Proof.
  assert (∀ w0, can_create_directories p (files w0) = false →
            ∃ evs : list Event,
              trace (save p w0).2 = trace w0 ++ evs ∧ evs = []) as Hnone.
  { intros w0 Hdir. rewrite (save_throws p w0 Hdir). exists [].
    by rewrite app_nil_r. }
  destruct (can_create_directories p (files w)) eqn:Hdir.
  - destruct (save_run p w Hdir) as (w1 & evs & -> & _ & Hk & Htr & Hev).
    cbn [snd]. exists evs.
    destruct (can_create_directories p (files w1)) eqn:Hdir1.
    + destruct (save_run p w1 Hdir1)
        as (w2 & evs2 & -> & _ & _ & Htr2 & Hev2).
      cbn [snd]. exists evs2.
      split; [done|]. split; [done|]. split; [done|].
      intros q Hq.
      destruct (Hev2 _ Hq) as (u & e & Hu & [Hw | (_ & Hne & Hr)]); [done|].
      rewrite Hk in Hu. apply Hne.
      destruct (m_keys w !! u); by inversion Hu.
    + destruct (Hnone w1 Hdir1) as (evs2 & Htr2 & ->). exists [].
      split; [done|]. split; [done|]. split; [done|].
      intros q Hq. by apply elem_of_nil in Hq.
  - destruct (Hnone w Hdir) as (evs & Htr & ->).
    rewrite (save_throws p w Hdir). cbn [snd].
    rewrite (save_throws p w Hdir). cbn [snd]. exists [], [].
    rewrite app_nil_r. split; [done|].
    split; [intros ev Hev; by apply elem_of_nil in Hev|]. split; [done|].
    intros q Hq. by apply elem_of_nil in Hq.
Qed.

(** The files that the loop of [save] does not touch, and the files that
    it does not write. *)
Lemma eff_for_save_entry_files_frame (p : string)
    (l : list (Z * (json_text * string))) (w : World) (q : string) :
  (∀ k, k ∈ l →
     canonical (key_file p k.1) ≠ q
     ∧ (k.2.2 ≠ "" ∧ k.2.2 ≠ key_file p k.1 → canonical k.2.2 ≠ q)) →
  files (eff_for l (save_entry p) w).2 !! q = files w !! q.
Proof.
  revert w. induction l as [|k l IH]; intros w Hq; [done|].
  pose proof (save_entry_world p k w) as Hrun. cbv zeta in Hrun.
  simpl. unfold eff_bind. rewrite Hrun.
  rewrite IH by (intros k' Hk'; apply Hq; by apply list_elem_of_further).
  destruct (Hq k (list_elem_of_here _ _)) as [Hfile Hback].
  cbn [files]. case_bool_decide as Hstale.
  - rewrite lookup_delete_ne by (by apply Hback).
    by rewrite lookup_insert_ne.
  - by rewrite lookup_insert_ne.
Qed.

Lemma eff_for_save_entry_files_gone (p : string)
    (l : list (Z * (json_text * string))) (w : World) (q : string) :
  (∀ k, k ∈ l → canonical (key_file p k.1) ≠ q) →
  files w !! q = None →
  files (eff_for l (save_entry p) w).2 !! q = None.
Proof.
  revert w. induction l as [|k l IH]; intros w Hq Hnone; [done|].
  pose proof (save_entry_world p k w) as Hrun. cbv zeta in Hrun.
  simpl. unfold eff_bind. rewrite Hrun.
  apply IH; [intros k' Hk'; apply Hq; by apply list_elem_of_further|].
  pose proof (Hq k (list_elem_of_here _ _)) as Hfile.
  cbn [files]. case_bool_decide as Hstale.
  - apply lookup_delete_None. right. by rewrite lookup_insert_ne.
  - by rewrite lookup_insert_ne.
Qed.

(** The key file of the element [k0] after the loop of [save]. *)
Lemma eff_for_save_entry_files (p : string)
    (l : list (Z * (json_text * string))) (w : World)
    (k0 : Z * (json_text * string)) :
  NoDup l.*1 → k0 ∈ l →
  (∀ k, k ∈ l → k.1 ≠ k0.1 →
     canonical (key_file p k.1) ≠ canonical (key_file p k0.1)) →
  ((∀ k, k ∈ l → k.2.2 ≠ "" ∧ k.2.2 ≠ key_file p k.1 →
      canonical k.2.2 ≠ canonical (key_file p k0.1)) →
   files (eff_for l (save_entry p) w).2 !! canonical (key_file p k0.1)
   = Some (write_string (obj_type (key_file_object k0 2)) true))
  ∧ (k0.2.2 ≠ "" ∧ k0.2.2 ≠ key_file p k0.1 →
     canonical k0.2.2 = canonical (key_file p k0.1) →
     files (eff_for l (save_entry p) w).2 !! canonical (key_file p k0.1)
     = None).
Proof.
  revert w. induction l as [|k l IH]; intros w Hnd Hin Hother.
  { by apply elem_of_nil in Hin. }
  cbn [fmap list_fmap] in Hnd. apply NoDup_cons in Hnd as [Hfresh Hnd].
  pose proof (save_entry_world p k w) as Hrun. cbv zeta in Hrun.
  simpl. unfold eff_bind. rewrite Hrun.
  apply elem_of_cons in Hin as [-> | Hin].
  - assert (∀ k', k' ∈ l →
              canonical (key_file p k'.1) ≠ canonical (key_file p k.1))
      as Hrest.
    { intros k' Hk'. apply Hother; [by apply list_elem_of_further|].
      intros Heq. apply Hfresh. rewrite <- Heq.
      apply list_elem_of_fmap. by exists k'. }
    split.
    + intros Hback. rewrite eff_for_save_entry_files_frame.
      * cbn [files]. case_bool_decide as Hstale.
        -- rewrite lookup_delete_ne
             by (apply Hback; [apply list_elem_of_here | done]).
           by rewrite lookup_insert_eq.
        -- by rewrite lookup_insert_eq.
      * intros k' Hk'. split; [by apply Hrest|].
        apply Hback. by apply list_elem_of_further.
    + intros Hstale Hself. apply eff_for_save_entry_files_gone; [done|].
      cbn [files]. rewrite bool_decide_eq_true_2 by done.
      rewrite Hself. apply lookup_delete_eq.
  - destruct (IH (mkWorld
                    (alter (λ e, (e.1, key_file p k.1)) k.1 (m_keys w))
                    (m_cached w)
                    (if bool_decide (k.2.2 ≠ "" ∧ k.2.2 ≠ key_file p k.1)
                     then delete (canonical k.2.2)
                            (<[canonical (key_file p k.1)
                               := write_string
                                    (obj_type (key_file_object k 2)) true]>
                               (files w))
                     else <[canonical (key_file p k.1)
                            := write_string
                                 (obj_type (key_file_object k 2)) true]>
                            (files w))
                    (trace w
                     ++ EvWriteFile (key_file p k.1)
                          (write_string (obj_type (key_file_object k 2))
                             true)
                        :: (if bool_decide
                                 (k.2.2 ≠ "" ∧ k.2.2 ≠ key_file p k.1)
                            then [EvRemove k.2.2] else [])))
                Hnd Hin) as [Hpos Hneg].
    { intros k' Hk'. apply Hother. by apply list_elem_of_further. }
    split; [|exact Hneg].
    intros Hback. apply Hpos. intros k' Hk'. apply Hback.
    by apply list_elem_of_further.
Qed.

(** X11: the key file of a key after [save] (once [create_directories] has
    returned), when no other key of the store has a key file that is this
    file.  The file is on the disk, with the object that [save] writes
    for the key, provided no key is backed by a path that names the file
    and that [save] takes for a former backing file to remove (a path that
    is not empty and is not, as a string, the key file of its key).  When
    the key itself is backed by such another spelling of its key file,
    [save] removes the file it has just written: the file is not on the
    disk. *)
Theorem save_files (p : string) (w : World) (u : Z)
    (e : json_text * string) :
  can_create_directories p (files w) = true →
  m_keys w !! u = Some e →
  (∀ u', is_Some (m_keys w !! u') → u' ≠ u →
     canonical (key_file p u') ≠ canonical (key_file p u)) →
  ((∀ u' e', m_keys w !! u' = Some e' →
      e'.2 ≠ "" ∧ e'.2 ≠ key_file p u' →
      canonical e'.2 ≠ canonical (key_file p u)) →
   files (save p w).2 !! canonical (key_file p u)
   = Some (write_string (obj_type (key_file_object (u, e) 2)) true))
  ∧ (e.2 ≠ "" ∧ e.2 ≠ key_file p u →
     canonical e.2 = canonical (key_file p u) →
     files (save p w).2 !! canonical (key_file p u) = None).
Proof.
  intros Hdir Hu Hother.
  assert (∀ l : list (Z * (json_text * string)),
            (∀ k, k ∈ l ↔ m_keys w !! k.1 = Some k.2) → NoDup l.*1 →
            ((∀ u' e', m_keys w !! u' = Some e' →
                e'.2 ≠ "" ∧ e'.2 ≠ key_file p u' →
                canonical e'.2 ≠ canonical (key_file p u)) →
             files (eff_for l (save_entry p) w).2 !! canonical (key_file p u)
             = Some (write_string (obj_type (key_file_object (u, e) 2))
                       true))
            ∧ (e.2 ≠ "" ∧ e.2 ≠ key_file p u →
               canonical e.2 = canonical (key_file p u) →
               files (eff_for l (save_entry p) w).2
                 !! canonical (key_file p u) = None))
    as Hgen.
  { intros l Hl Hnd.
    destruct (eff_for_save_entry_files p l w (u, e) Hnd) as [Hpos Hneg].
    - by apply Hl.
    - intros k Hk Hne. apply Hother; [|done]. apply Hl in Hk. by eexists.
    - split; [|exact Hneg]. intros Hback. apply Hpos.
      intros k Hk. apply Hl in Hk. by apply Hback. }
  unfold save, eff_bind, eff_get. rewrite create_directories_run, Hdir.
  apply Hgen.
  - intros [u' e']. rewrite merge_sort_Permutation.
    apply elem_of_map_to_list.
  - rewrite merge_sort_Permutation. apply NoDup_fst_map_to_list.
Qed.

(** *** [secret] and [kill] *)

(** The run of [secret], by the maps of the store. *)
Lemma secret_run (_uuid : Z) (_pass : unit → string) (w : World) :
  match m_cached w !! _uuid, m_keys w !! _uuid with
  | Some cached, _ => secret _uuid _pass w = (Ret cached, w)
  | None, None => secret _uuid _pass w = (Ret [], w)
  | None, Some it =>
      ∃ res evs,
        decrypt it.1 (_pass tt) (trace w ++ [EvPass])
        = (res, (trace w ++ [EvPass]) ++ evs)
        ∧ secret _uuid _pass w
          = (res,
             mkWorld (m_keys w)
               (match res with
                | Ret key =>
                    if bool_decide (key ≠ [])
                    then <[_uuid := key]> (m_cached w) else m_cached w
                | Throw _ => m_cached w
                end)
               (files w) ((trace w ++ [EvPass]) ++ evs))
  end.
Proof.
  destruct (m_cached w !! _uuid) as [cached|] eqn:Hc.
  { unfold secret. eff_unfold. by rewrite Hc. }
  destruct (m_keys w !! _uuid) as [it|] eqn:Hk.
  2: { unfold secret. eff_unfold. by rewrite Hc, Hk. }
  destruct (decrypt it.1 (_pass tt) (trace w ++ [EvPass])) as [res l']
    eqn:Hdec.
  destruct (decrypt_trace _ _ _ _ _ Hdec) as (evs & -> & _).
  exists res, evs. split; [done|].
  unfold secret, call_pass, log. eff_unfold. rewrite Hc, Hk.
  cbn [trace set_trace m_keys m_cached files]. rewrite Hdec.
  destruct res as [key|e]; [|done].
  cbn [trace set_trace m_keys m_cached files]. by case_bool_decide.
Qed.

(** X12: [secret] never changes [m_keys] or the files, and a non-empty
    result is returned again by the next call for the same UUID, whatever
    the callback, with nothing done: the callback is not called a second
    time. *)
Theorem secret_again (_uuid : Z) (_pass : unit → string) (w : World) :
  m_keys (secret _uuid _pass w).2 = m_keys w
  ∧ files (secret _uuid _pass w).2 = files w
  ∧ ∀ key, (secret _uuid _pass w).1 = Ret key → key ≠ [] →
      ∀ _pass', secret _uuid _pass' (secret _uuid _pass w).2
                = (Ret key, (secret _uuid _pass w).2).
Proof.
  pose proof (secret_run _uuid _pass w) as Hrun.
  destruct (m_cached w !! _uuid) as [cached|] eqn:Hc.
  { rewrite Hrun. cbn [fst snd]. split; [done|]. split; [done|].
    intros key [= ->] _ _pass'.
    pose proof (secret_run _uuid _pass' w) as Hrun'. by rewrite Hc in Hrun'. }
  destruct (m_keys w !! _uuid) as [it|] eqn:Hk.
  2: { rewrite Hrun. cbn [fst snd]. split; [done|]. split; [done|].
       intros key [= <-] Hne. by destruct Hne. }
  destruct Hrun as (res & evs & _ & ->). cbn [fst snd m_keys files].
  split; [done|]. split; [done|].
  intros key -> Hne _pass'. rewrite bool_decide_eq_true_2 by done.
  match goal with
  | |- secret _ _ ?w1 = _ =>
      pose proof (secret_run _uuid _pass' w1) as Hrun'
  end.
  cbn [m_cached] in Hrun'. by rewrite lookup_insert_eq in Hrun'.
Qed.

(** X13: [kill] removes the UUID from both maps and removes the file that
    its backing path names, and nothing else; after it [secret] returns the empty bytes for
    the UUID without calling the callback. *)
Theorem kill_secret (_uuid : Z) (_pass : unit → string) (w : World) :
  ∃ w',
    kill _uuid w = (Ret tt, w')
    ∧ m_keys w' = delete _uuid (m_keys w)
    ∧ m_cached w' = delete _uuid (m_cached w)
    ∧ files w'
      = match m_keys w !! _uuid with
        | Some it => delete (canonical it.2) (files w)
        | None => files w
        end
    ∧ trace w'
      = trace w ++ match m_keys w !! _uuid with
                   | Some it => [EvRemove it.2]
                   | None => []
                   end
    ∧ secret _uuid _pass w' = (Ret [], w').
Proof.
  assert (∀ w' : World,
            m_keys w' = delete _uuid (m_keys w) →
            m_cached w' = delete _uuid (m_cached w) →
            secret _uuid _pass w' = (Ret [], w')) as Hsecret.
  { intros w' Hk' Hc'. pose proof (secret_run _uuid _pass w') as Hrun.
    by rewrite Hk', Hc', !lookup_delete_eq in Hrun. }
  unfold kill, fs_remove, log. eff_unfold. cbn [m_keys set_cached].
  destruct (m_keys w !! _uuid) as [it|] eqn:Hk.
  - eexists. split; [reflexivity|].
    cbn [m_keys m_cached files trace set_keys set_files set_trace].
    repeat (split; [done|]). by apply Hsecret.
  - eexists. split; [reflexivity|].
    cbn [m_keys m_cached files trace set_keys set_files set_trace].
    rewrite app_nil_r, (delete_id _ _ Hk). repeat (split; [done|]).
    apply Hsecret; [|done]. cbn [m_keys]. by rewrite (delete_id _ _ Hk).
Qed.

(** *** [load] *)

(** A warning of [load] about a key file whose version is not 2. *)
Lemma load_object_frame (o : mObject) (path : string) (w : World) :
  ∃ res w' evs,
    load_object o path w = (res, w')
    ∧ m_cached w' = m_cached w
    ∧ files w' = files w
    ∧ (∀ u, is_Some (m_keys w !! u) → is_Some (m_keys w' !! u))
    ∧ trace w' = trace w ++ evs
    ∧ ∀ ev, ev ∈ evs →
        ∃ version, version ≠ 2 ∧ ev = EvWarn (CannotReadKeyVersion version).
Proof.
  unfold load_object, eff_bind at 1.
  pose proof (key_version_state o w) as Hs.
  destruct (key_version o w) as [[version|e] w1]; simpl in Hs; subst w1.
  - case_bool_decide as Hv.
    + eff_unfold. destruct (member o "id") as [|id| | | |];
        try (eexists _, w, []; rewrite app_nil_r;
             repeat (split; [done|]); intros ev Hev;
             by apply elem_of_nil in Hev).
      destruct (fromUUID id) as [uuid|];
        [|eexists _, w, []; rewrite app_nil_r;
          repeat (split; [done|]); intros ev Hev;
          by apply elem_of_nil in Hev].
      eexists _, _, []. split; [reflexivity|].
      cbn [m_keys m_cached files trace set_keys]. rewrite app_nil_r.
      split; [done|]. split; [done|]. split; [|split; [done|]].
      * intros u Hu. destruct (decide (uuid = u)) as [-> | Hne].
        -- rewrite lookup_insert_eq. by eexists.
        -- by rewrite lookup_insert_ne.
      * intros ev Hev. by apply elem_of_nil in Hev.
    + unfold log. eff_unfold. eexists _, _, [_]. split; [reflexivity|].
      cbn [m_keys m_cached files trace set_trace].
      repeat (split; [done|]). intros ev Hev.
      apply list_elem_of_singleton in Hev as ->. by exists version.
  - eexists _, w, []. rewrite app_nil_r. repeat (split; [done|]).
    intros ev Hev. by apply elem_of_nil in Hev.
Qed.

Lemma load_files_frame (entries : list (string * json_text)) (v : mValue)
    (w : World) :
  ∃ res w' evs,
    load_files entries v w = (res, w')
    ∧ m_cached w' = m_cached w
    ∧ files w' = files w
    ∧ (∀ u, is_Some (m_keys w !! u) → is_Some (m_keys w' !! u))
    ∧ trace w' = trace w ++ evs
    ∧ ∀ ev, ev ∈ evs →
        ∃ version, version ≠ 2 ∧ ev = EvWarn (CannotReadKeyVersion version).
Proof.
  revert v w. induction entries as [|e rest IH]; intros v w.
  { eexists _, w, []. rewrite app_nil_r. repeat (split; [done|]).
    intros ev Hev. by apply elem_of_nil in Hev. }
  simpl. unfold eff_bind.
  set (v' := (read_string e.2 v).2).
  assert (∃ res w1 evs,
    match v' with
    | obj_type o => load_object o e.1
    | _ => eff_ret tt
    end w = (res, w1)
    ∧ m_cached w1 = m_cached w
    ∧ files w1 = files w
    ∧ (∀ u, is_Some (m_keys w !! u) → is_Some (m_keys w1 !! u))
    ∧ trace w1 = trace w ++ evs
    ∧ ∀ ev, ev ∈ evs →
        ∃ version, version ≠ 2 ∧ ev = EvWarn (CannotReadKeyVersion version))
    as (res & w1 & evs1 & -> & Hc & Hf & Hk & Htr & Hev).
  { destruct v' as [| | | | |o]; try apply load_object_frame;
      eexists _, w, []; rewrite app_nil_r; (repeat (split; [done|]));
      intros ev Hev; by apply elem_of_nil in Hev. }
  destruct res as [[]|ex]; [|by eexists _, w1, evs1].
  destruct (IH v' w1) as (res & w2 & evs2 & -> & Hc2 & Hf2 & Hk2 & Htr2 & Hev2).
  exists res, w2, (evs1 ++ evs2).
  split; [done|]. split; [congruence|]. split; [congruence|].
  split; [by auto|]. split; [by rewrite Htr2, Htr, app_assoc|].
  intros ev [Hin | Hin]%elem_of_app; auto.
Qed.

(** X14: [load] never changes the cache or the files and never removes a
    key; all it adds to the trace are warnings about key files whose
    version is not 2. *)
Theorem load_frame (_keysPath : string) (w : World) :
  m_cached (load _keysPath w).2 = m_cached w
  ∧ files (load _keysPath w).2 = files w
  ∧ (∀ u, is_Some (m_keys w !! u) →
          is_Some (m_keys (load _keysPath w).2 !! u))
  ∧ ∃ evs,
      trace (load _keysPath w).2 = trace w ++ evs
      ∧ ∀ ev, ev ∈ evs →
          ∃ version, version ≠ 2 ∧ ev = EvWarn (CannotReadKeyVersion version).
Proof.
  unfold load, eff_bind, eff_get. rewrite create_directories_run.
  destruct (can_create_directories _keysPath (files w)).
  2: { cbn [snd]. split; [done|]. split; [done|]. split; [done|].
       exists []. rewrite app_nil_r. split; [done|].
       intros ev Hev. by apply elem_of_nil in Hev. }
  destruct (load_files_frame (directory_iterator (files w) _keysPath)
              null_type w)
    as (res & w' & evs & -> & Hc & Hf & Hk & Htr & Hev).
  cbn [snd]. split; [done|]. split; [done|]. split; [done|].
  exists evs. by split.
Qed.

(** X15: a key file that cannot be used ends [load]: when the [Version]
    member of its object is a string that [std::stoi] does not read, or
    its version is 2 and its [id] is no string, [load] throws at this
    file, with the store as it is then, and no later file of the
    directory is read. *)
Theorem load_files_throws (path : string) (contents : json_text)
    (rest : list (string * json_text)) (v : mValue) (o : mObject)
    (w : World) :
  (read_string contents v).2 = obj_type o →
  (∀ s, o !! "Version" = Some (str_type s) → stoi s = None →
     load_files ((path, contents) :: rest) v w = (Throw stoi_exception, w))
  ∧ (version_field o 2 → (∀ id, member o "id" ≠ str_type id) →
     load_files ((path, contents) :: rest) v w
     = (Throw json_runtime_error, w)).
Proof.
  intros Hread. split.
  - intros str Hv Hstoi. simpl. rewrite Hread.
    unfold eff_bind at 1, load_object, eff_bind at 1, key_version.
    rewrite bool_decide_eq_true_2 by (by rewrite Hv).
    unfold member. rewrite Hv. eff_unfold. simpl. by rewrite Hstoi.
  - intros Hver Hid. simpl. rewrite Hread.
    unfold eff_bind at 1, load_object, eff_bind at 1.
    rewrite (key_version_run o 2 w Hver). simpl.
    destruct (member o "id") as [|id| | | |]; try done.
    by destruct (Hid id).
Qed.

(** X16: [load] reads every file into the one [js::mValue] declared
    before its loop.  When the reader rejects a file and leaves the value
    as it was, the object of the file before it is loaded a second time,
    now with the path of the rejected file: a key of version 2, its [id]
    the text of a UUID, ends up backed by the file that could not be
    read. *)
Theorem load_files_reuses_value (path1 path2 : string)
    (contents1 contents2 : json_text) (v : mValue) (o : mObject) (id : string)
    (uuid : Z) (w : World) :
  (read_string contents1 v).2 = obj_type o →
  read_string contents2 (obj_type o) = (false, obj_type o) →
  version_field o 2 →
  member o "id" = str_type id →
  fromUUID id = Some uuid →
  load_files [(path1, contents1); (path2, contents2)] v w
  = (Ret tt,
     set_keys (<[uuid := (write_string (member o "crypto") false, path2)]>)
       w).
Proof.
  intros Hread1 Hread2 Hver Hid Hu. simpl. rewrite Hread1, Hread2. simpl.
  assert (∀ path w0,
            load_object o path w0
            = (Ret tt,
               set_keys
                 (<[uuid := (write_string (member o "crypto") false, path)]>)
                 w0))
    as Hload.
  { intros path w0. unfold load_object, eff_bind at 1.
    rewrite (key_version_run o 2 w0 Hver). simpl. rewrite Hid.
    unfold eff_bind, get_str, eff_ret. by rewrite Hu. }
  unfold eff_bind. rewrite !Hload. unfold eff_ret, set_keys.
  cbn [m_keys m_cached files trace]. by rewrite insert_insert_eq.
Qed.

(** *** A key through [importSecret], [save] and [load] *)

Hypothesis read_write_string : ∀ v pretty old,
  read_string (write_string v pretty) old = (true, v).

Hypothesis sha3_range : ∀ bs, 0 ≤ sha3 bs < 2 ^ 256.

Hypothesis decryptSymNoAuth_encryptSymNoAuth : ∀ k iv plain,
  decryptSymNoAuth k iv (encryptSymNoAuth k iv plain) = plain.

(** X17: once the default directory is there or has been created
    ([create_directories] returns), [importSecret] returns the UUID it
    drew, with the secret in the cache and its encrypted text in [m_keys],
    backed by the key file of the UUID in the default directory.  [secret] then returns the secret from
    the cache, whatever the callback; once the cache is cleared, it calls
    the callback, decrypts the text under the passphrase of the import
    and returns the secret, which (when not empty) is cached again. *)
Theorem importSecret_secret (default_keysPath : string) (_s : bytes)
    (_pass : string) (r salt iv : Z) (w : World) :
  0 ≤ iv < 2 ^ 128 →
  can_create_directories default_keysPath (files w) = true →
  ∃ w1,
    importSecret default_keysPath _s _pass r salt iv w = (Ret r, w1)
    ∧ m_cached w1 = <[r := _s]> (m_cached w)
    ∧ m_keys w1 !! r
      = Some (encrypt _s _pass salt iv, key_file default_keysPath r)
    ∧ (∀ _pass', secret r _pass' w1 = (Ret _s, w1))
    ∧ ∃ key cipherText,
        secret r (λ _, _pass) (clearCache w1).2
        = (Ret _s,
           mkWorld (m_keys w1)
             (if bool_decide (_s ≠ []) then <[r := _s]> ∅ else ∅)
             (files w1)
             (trace w1 ++ [EvPass; EvDecryptSym key iv cipherText])).
Proof.
  intros Hiv Hdir. unfold importSecret. eff_unfold. cbv beta iota.
  set (w0 := set_keys _ (set_cached _ w)).
  destruct (save_run default_keysPath w0 Hdir)
    as (w1 & evs & Hrun & Hc & Hk & Htr & _).
  rewrite Hrun. exists w1. split; [done|].
  assert (m_keys w1 !! r
          = Some (encrypt _s _pass salt iv, key_file default_keysPath r))
    as Hkey.
  { rewrite Hk. unfold w0. cbn [m_keys set_keys set_cached].
    by rewrite lookup_insert_eq. }
  split; [by rewrite Hc|]. split; [done|]. split.
  - intros _pass'. pose proof (secret_run r _pass' w1) as Hs.
    rewrite Hc in Hs. unfold w0 in Hs.
    cbn [m_cached set_keys set_cached] in Hs.
    by rewrite lookup_insert_eq in Hs.
  - pose proof (secret_run r (λ _, _pass) (clearCache w1).2) as Hs.
    unfold clearCache, eff_modify in Hs.
    cbn [snd set_cached m_cached m_keys files trace] in Hs.
    rewrite lookup_empty, Hkey in Hs.
    destruct Hs as (res & evs' & Hdec & Hsec). cbn [fst] in Hdec.
    pose proof (decrypt_encrypt_run read_write_string sha3_range _s _pass
                  salt iv (trace w1 ++ [EvPass]) Hiv) as Hd.
    cbv zeta in Hd. rewrite decryptSymNoAuth_encryptSymNoAuth in Hd.
    rewrite Hd in Hdec. injection Hdec as <- Hevs.
    apply app_inv_head in Hevs. subst evs'.
    unfold clearCache, eff_modify. cbn [snd].
    eexists _, _. rewrite Hsec. by rewrite <- app_assoc.
Qed.

(** X18: the key file that [save] writes for a key is read back by [load]
    as this key: it is put into [m_keys] under the same UUID, backed by
    the file, and the text stored for it decrypts as the text that was
    saved does. *)
Theorem save_load_entry (p : string) (u : Z) (e : json_text * string) :
  0 ≤ u < 2 ^ 128 →
  let o := key_file_object (u, e) 2 in
  let text := write_string (read_string e.1 null_type).2 false in
  (∀ rest v w,
     load_files ((key_file p u, write_string (obj_type o) true) :: rest) v w
     = load_files rest (obj_type o)
         (set_keys (<[u := (text, key_file p u)]>) w))
  ∧ (∀ _pass l, decrypt text _pass l = decrypt e.1 _pass l).
Proof.
  intros Hu o text. split.
  - intros rest v w. cbn [load_files fst snd].
    rewrite read_write_string. cbn [snd]. unfold eff_bind at 1.
    assert (version_field o 2) as Hver.
    { right. left. unfold o, key_file_object.
      rewrite !lookup_insert_ne by (intros [=]). rewrite lookup_empty.
      rewrite lookup_insert_eq. split; [done|]. by exists 2. }
    assert (member o "id" = str_type (toUUID u)) as Hid.
    { unfold o, key_file_object, member.
      rewrite lookup_insert_ne by (intros [=]).
      by rewrite lookup_insert_eq. }
    assert (member o "crypto" = (read_string e.1 null_type).2) as Hcrypto.
    { unfold o, key_file_object, member.
      rewrite !lookup_insert_ne by (intros [=]).
      by rewrite lookup_insert_eq. }
    unfold load_object, eff_bind at 1.
    rewrite (key_version_run o 2 w Hver).
    rewrite bool_decide_eq_true_2 by done.
    rewrite Hid, Hcrypto. unfold eff_bind, get_str, eff_ret, eff_modify.
    by rewrite fromUUID_toUUID by done.
  - intros _pass l. unfold text, decrypt. by rewrite read_write_string.
Qed.

End StoreBehaviour.

(** ** EC.cpp: encryption to a public key *)

Lemma write_into_exact (buffer data : bytes) :
  length data = length buffer → write_into buffer data = data.
Proof.
  intros Hlen. unfold write_into. rewrite <- Hlen.
  rewrite (drop_ge buffer) by lia. rewrite app_nil_r.
  by rewrite take_ge by lia.
Qed.

Section ECProperties.

Context {ECIES : CryptoPP_ECIES}.

(** The contract of the ECIES scheme for the secret key [k] and its
    public key [pub]: the ciphertext has the length announced for the
    message, decryption gives the message back, and the plaintext buffer
    for a ciphertext is as long as its message. *)
Variables (k pub : Z).
Hypothesis Encrypt_length : ∀ rng message,
  length (Encrypt pub rng message) = CiphertextLength (length message).
Hypothesis Decrypt_Encrypt : ∀ rng message,
  Decrypt k (Encrypt pub rng message) = Some message.
Hypothesis MaxPlaintextLength_CiphertextLength : ∀ n,
  MaxPlaintextLength (CiphertextLength n) = n.

(** X19: [crypto::decrypt] with the secret key gives back the non-empty
    message that [crypto::encrypt] was given with the public key; on the
    encryption of the empty message, and on every text that the library
    rejects, its assertion on the length of the message fails. *)
Theorem crypto_decrypt_encrypt (rng : Z) (message : bytes) :
  (message ≠ [] →
   crypto.decrypt k (crypto.encrypt pub rng message) = Done message)
  ∧ crypto.decrypt k (crypto.encrypt pub rng []) = AssertionFailed
  ∧ (∀ text, Decrypt k text = None →
       crypto.decrypt k text = AssertionFailed).
Proof.
  assert (∀ m, crypto.encrypt pub rng m = Encrypt pub rng m) as Henc.
  { intros m. unfold crypto.encrypt. cbv zeta. apply write_into_exact.
    by rewrite length_replicate, Encrypt_length. }
  split; [|split].
  - intros Hne. rewrite Henc. unfold crypto.decrypt.
    rewrite Decrypt_Encrypt, Encrypt_length,
      MaxPlaintextLength_CiphertextLength.
    rewrite bool_decide_eq_true_2 by (by destruct message).
    cbn [assert checked_bind]. f_equal. apply write_into_exact.
    by rewrite length_replicate.
  - rewrite Henc. unfold crypto.decrypt. by rewrite Decrypt_Encrypt.
  - intros text Hnone. unfold crypto.decrypt. by rewrite Hnone.
Qed.

End ECProperties.

(** ** The store in the small instance *)

Lemma demo_read_write_string (v : mValue) (pretty : bool) (old : mValue) :
  read_string (JsonSpirit := demo_json) (write_string v pretty) old
  = (true, v).
Proof. reflexivity. Qed.

Lemma demo_sha3_range (bs : bytes) :
  0 ≤ sha3 (Keccak := demo_keccak) bs < 2 ^ 256.
Proof. simpl. apply Z.mod_pos_bound. lia. Qed.

Lemma demo_pbkdf2_length (_pass : string) (_salt : bytes)
    (_iterations _dkLen : Z) :
  0 ≤ _dkLen →
  length (pbkdf2 (SymmetricCrypto := demo_crypto) _pass _salt _iterations
            _dkLen) = Z.to_nat _dkLen.
Proof.
  intros _. simpl. rewrite length_take, length_app, length_replicate. lia.
Qed.


(** C6, as the specification states it, fails: the object that [save]
    writes has the integer 2 under ["version"], not 3. *)
Lemma save_version_counterexample :
  m_keys demo_store !! 1 = Some (null_type, "")
  ∧ ∃ o : mObject,
      files (save (FS := demo_fs) "keys" demo_store).2
        !! "keys/00000000-0000-0000-0000-000000000001.json"
      = Some (obj_type o)
      ∧ member o "version" = int_type 2
      ∧ member o "version" ≠ int_type 3.
Proof.
  split; [by vm_compute|].
  exists (key_file_object (JSON := demo_json) (1, (null_type, "")) 2).
  split; [by vm_compute|]. split; [by vm_compute|].
  vm_compute. by intros [=].
Qed.


(** C4, as the specification states it, fails: a passphrase [p'] distinct
    from [p] need not give another MAC.  PBKDF2 with HMAC pads a short
    passphrase with zero bytes, and so does the small instance: the
    passphrase followed by a zero byte derives the same key, and [decrypt]
    returns the secret. *)
Lemma decrypt_other_passphrase_counterexample :
  "pw" ≠ "pw" +:+ String Ascii.zero ""
  ∧ (decrypt (JSON := demo_json) (CRYPTO := demo_crypto)
       (KECCAK := demo_keccak)
       (encrypt (JSON := demo_json) (CRYPTO := demo_crypto)
          (KECCAK := demo_keccak) [x01; x02] "pw" 5 9)
       ("pw" +:+ String Ascii.zero "") []).1
    = Ret [x01; x02].
Proof. split; [by intros [=] | by vm_compute]. Qed.



Lemma decrypt_mac_mismatch_witness :
  (decrypt (JSON := demo_json) (CRYPTO := demo_crypto)
     (KECCAK := demo_keccak)
     (encrypt (JSON := demo_json) (CRYPTO := demo_crypto)
        (KECCAK := demo_keccak) [x01; x02] "pw" 5 9) "no" []).1
  = Ret [].
Proof.
  destruct (decrypt_mac_mismatch (JSON := demo_json) (CRYPTO := demo_crypto)
              (KECCAK := demo_keccak) demo_read_write_string demo_sha3_range
              demo_pbkdf2_length) as [_ Hwrong].
  rewrite (Hwrong [x01; x02] "pw" "no" 5 9 []); [reflexivity|].
  vm_compute. by intros [=].
Defined.


Lemma save_writes_version_2_witness :
  m_keys demo_store !! 1 = Some (null_type, "")
  ∧ can_create_directories (FileSystem := demo_fs) "keys" (files demo_store)
    = true
  ∧ (save (FS := demo_fs) "keys" demo_store).1 = Ret tt.
Proof.
  assert (m_keys demo_store !! 1 = Some (null_type, "")) as Hk
    by (by vm_compute).
  assert (can_create_directories (FileSystem := demo_fs) "keys"
            (files demo_store) = true) as Hdir by (by vm_compute).
  split; [exact Hk|]. split; [exact Hdir|].
  destruct (save_writes_version_2 (JSON := demo_json) (FS := demo_fs) "keys"
              demo_store 1 null_type "" Hk) as [Hsave _].
  by destruct (Hsave Hdir).
Defined.

Lemma cache_subset_keys_preserved_witness :
  cache_subset_keys demo_store
  ∧ cache_subset_keys (kill (FS := demo_fs) 1 demo_store).2.
Proof.
  assert (cache_subset_keys demo_store) as Hinv.
  { unfold cache_subset_keys, demo_store. cbn [m_cached m_keys].
    by rewrite !dom_singleton_L. }
  split; [exact Hinv|].
  destruct (cache_subset_keys_preserved (JSON := demo_json)
              (CRYPTO := demo_crypto) (KECCAK := demo_keccak)
              (FS := demo_fs) "keys" demo_store Hinv)
    as (_ & _ & Hkill & _).
  exact (Hkill 1).
Defined.

(** ** The further properties in the small instances *)


Lemma demo_pubkey_nonzero (k : Z)
    (P : secp256k1_pubkey (Secp256k1 := demo_secp256k1)) (body : bytes) :
  secp256k1_ec_pubkey_create (Secp256k1 := demo_secp256k1) k = Some P →
  secp256k1_ec_pubkey_serialize (Secp256k1 := demo_secp256k1) P
    SECP256K1_EC_UNCOMPRESSED = x04 :: body →
  fromBigEndian body ≠ 0.
Proof.
  cbn [secp256k1_ec_pubkey_create secp256k1_ec_pubkey_serialize
       demo_secp256k1].
  case_bool_decide as Hk; [|done]. intros [= <-] Hser.
  pose proof (f_equal tail Hser) as Ht. cbn [tail] in Ht. subst body.
  rewrite fromBigEndian_toBigEndian.
  destruct (half_order_bounds k Hk) as [_ Hn].
  rewrite Z.mod_small; lia.
Qed.

Lemma demo_curve_create_invalid (k : Z) :
  k = 0 ∨ c_secp256k1n ≤ k →
  secp256k1_ec_pubkey_create (Secp256k1 := demo_curve) k = None.
Proof. intros Hk. simpl. rewrite bool_decide_eq_false_2; [done | lia]. Qed.

Lemma demo_curve_serialize_uncompressed
    (P : secp256k1_pubkey (Secp256k1 := demo_curve)) :
  ∃ body,
    secp256k1_ec_pubkey_serialize (Secp256k1 := demo_curve) P
      SECP256K1_EC_UNCOMPRESSED = x04 :: body
    ∧ length body = 64%nat.
Proof. eexists. split; [reflexivity|]. apply length_toBigEndian. Qed.

Lemma demo_curve_serialize_compressed
    (P : secp256k1_pubkey (Secp256k1 := demo_curve)) :
  ∃ hd body,
    secp256k1_ec_pubkey_serialize (Secp256k1 := demo_curve) P
      SECP256K1_EC_COMPRESSED = hd :: body
    ∧ (hd = x02 ∨ hd = x03) ∧ length body = 32%nat.
Proof.
  eexists _, _. split; [reflexivity|]. split; [by left|].
  apply length_toBigEndian.
Qed.

Lemma demo_curve_parse_serialize (k : Z)
    (P : secp256k1_pubkey (Secp256k1 := demo_curve)) :
  secp256k1_ec_pubkey_create (Secp256k1 := demo_curve) k = Some P →
  secp256k1_ec_pubkey_parse (Secp256k1Keys := demo_curve_keys)
    (secp256k1_ec_pubkey_serialize (Secp256k1 := demo_curve) P
       SECP256K1_EC_COMPRESSED) = Some P.
Proof.
  cbn [secp256k1_ec_pubkey_create secp256k1_ec_pubkey_serialize
       secp256k1_ec_pubkey_parse demo_curve demo_curve_keys].
  case_bool_decide as Hk; [|done]. intros [= <-].
  destruct (half_order_bounds k Hk) as [_ Hn].
  rewrite fromBigEndian_toBigEndian, length_toBigEndian.
  rewrite (Z.mod_small k) by lia.
  by rewrite bool_decide_eq_true_2.
Qed.

Lemma demo_curve_parse_zero :
  secp256k1_ec_pubkey_parse (Secp256k1Keys := demo_curve_keys)
    (replicate 33 x00) = None.
Proof. reflexivity. Qed.

Lemma demo_decryptSymNoAuth_encryptSymNoAuth (k iv : Z) (plain : bytes) :
  decryptSymNoAuth (SymmetricCrypto := demo_crypto) k iv
    (encryptSymNoAuth (SymmetricCrypto := demo_crypto) k iv plain) = plain.
Proof. reflexivity. Qed.


Lemma verify_sign_witness :
  0 < 5 < c_secp256k1n
  ∧ checked_bind (toPublic (CURVE := demo_secp256k1) 5)
      (λ p, checked_bind (sign (CURVE := demo_secp256k1) 5 7)
              (λ sig, verify (CURVE := demo_secp256k1) p sig 7))
    = Done true.
Proof.
  assert (0 < 5 < c_secp256k1n) as Hk by (vm_compute; done).
  split; [exact Hk|].
  apply (verify_sign (CURVE := demo_secp256k1) demo_pubkey_create_valid
           demo_pubkey_serialize_uncompressed demo_sign_recoverable_valid
           demo_sign_compact_range demo_recover_sign_recoverable
           demo_recover_negate demo_pubkey_nonzero 5 7 Hk).
Defined.

Lemma toPublic_toPublicCompressed_witness :
  checked_bind (toPublicCompressed (CURVE := demo_curve) 5)
    (toPublic_Compressed (KEYS := demo_curve_keys))
  = toPublic (CURVE := demo_curve) 5
  ∧ toPublic (CURVE := demo_curve) 5 = Done 5.
Proof.
  split; [|reflexivity].
  apply (toPublic_toPublicCompressed (CURVE := demo_curve)
           (KEYS := demo_curve_keys) demo_curve_serialize_uncompressed
           demo_curve_serialize_compressed demo_curve_parse_serialize
           demo_curve_parse_zero 5).
Defined.

Lemma verify_Compressed_invalid_secret_witness :
  (c_secp256k1n = 0 ∨ c_secp256k1n ≤ c_secp256k1n)
  ∧ toPublicCompressed (CURVE := demo_curve) c_secp256k1n = Done 0
  ∧ verify_Compressed (KEYS := demo_curve_keys) 0 9 7 = false.
Proof.
  assert (c_secp256k1n = 0 ∨ c_secp256k1n ≤ c_secp256k1n) as Hk
    by (right; lia).
  split; [exact Hk|].
  apply (verify_Compressed_invalid_secret (CURVE := demo_curve)
           (KEYS := demo_curve_keys) demo_curve_create_invalid
           demo_curve_parse_zero c_secp256k1n 9 7 Hk).
Defined.

Lemma recover_toPubkey_witness :
  toPubkey (CURVE := demo_curve) (KEYS := demo_curve_keys)
    (SignatureStruct.mk 1 5 0) 7
  ≠ secp256k1_pubkey_zero (Secp256k1Keys := demo_curve_keys)
  ∧ recover (CURVE := demo_curve) (SignatureStruct.mk 1 5 0) 7 = Done 5.
Proof.
  assert (toPubkey (CURVE := demo_curve) (KEYS := demo_curve_keys)
            (SignatureStruct.mk 1 5 0) 7
          ≠ secp256k1_pubkey_zero (Secp256k1Keys := demo_curve_keys)) as Hne.
  { vm_compute. by intros [=]. }
  split; [exact Hne|].
  rewrite (recover_toPubkey (CURVE := demo_curve)
             (KEYS := demo_curve_keys) demo_curve_serialize_uncompressed
             (SignatureStruct.mk 1 5 0) 7 Hne).
  reflexivity.
Defined.

Lemma decrypt_encrypt_witness :
  0 ≤ 9 < 2 ^ 128
  ∧ (decrypt (JSON := demo_json) (CRYPTO := demo_crypto)
       (KECCAK := demo_keccak)
       (encrypt (JSON := demo_json) (CRYPTO := demo_crypto)
          (KECCAK := demo_keccak) [x2a] "pw" 5 9) "pw" []).1
    = Ret [x2a].
Proof.
  assert (0 ≤ 9 < 2 ^ 128) as Hiv by lia. split; [exact Hiv|].
  destruct (decrypt_encrypt (JSON := demo_json) (CRYPTO := demo_crypto)
              (KECCAK := demo_keccak) demo_read_write_string demo_sha3_range
              demo_decryptSymNoAuth_encryptSymNoAuth [x2a] "pw" 5 9 [] Hiv)
    as (key & cipherText & Hrun).
  rewrite Hrun. reflexivity.
Defined.

Lemma decrypt_aes_verified_witness :
  decrypt (JSON := demo_json) (CRYPTO := demo_crypto) (KECCAK := demo_keccak)
    (encrypt (JSON := demo_json) (CRYPTO := demo_crypto)
       (KECCAK := demo_keccak) [x01; x02] "pw" 5 9) "pw" []
  = (Ret [x01; x02],
     [] ++ [EvDecryptSym (JSON := demo_json)
              210563214504162864819797217638862553095 9 [x01; x02]])
  ∧ mac_verified (JSON := demo_json) (CRYPTO := demo_crypto)
      (KECCAK := demo_keccak)
      (encrypt (JSON := demo_json) (CRYPTO := demo_crypto)
         (KECCAK := demo_keccak) [x01; x02] "pw" 5 9) "pw".
Proof.
  assert (decrypt (JSON := demo_json) (CRYPTO := demo_crypto)
            (KECCAK := demo_keccak)
            (encrypt (JSON := demo_json) (CRYPTO := demo_crypto)
               (KECCAK := demo_keccak) [x01; x02] "pw" 5 9) "pw" []
          = (Ret [x01; x02],
             [] ++ [EvDecryptSym (JSON := demo_json)
                      210563214504162864819797217638862553095 9
                      [x01; x02]])) as Hrun by (by vm_compute).
  split; [exact Hrun|].
  destruct (decrypt_aes_verified (JSON := demo_json) (CRYPTO := demo_crypto)
              (KECCAK := demo_keccak) _ _ _ _ _ _ _ _ Hrun
              (list_elem_of_here _ _)) as [Hmac _].
  exact Hmac.
Defined.

Lemma decrypt_unsupported_witness :
  (read_string (JsonSpirit := demo_json) (obj_type ∅) null_type).2
  = obj_type ∅
  ∧ decrypt (JSON := demo_json) (CRYPTO := demo_crypto)
      (KECCAK := demo_keccak) (obj_type ∅) "pw" []
    = (Throw json_runtime_error, []).
Proof.
  assert ((read_string (JsonSpirit := demo_json) (obj_type ∅) null_type).2
          = obj_type ∅) as Hread by reflexivity.
  split; [exact Hread|].
  destruct (decrypt_unsupported (JSON := demo_json) (CRYPTO := demo_crypto)
              (KECCAK := demo_keccak) (obj_type ∅) "pw" ∅ [] Hread)
    as [Hnone _].
  apply Hnone. reflexivity.
Defined.

(** At the store whose key is backed by [./keys/<uuid>.json], [save] to
    [keys] writes [keys/<uuid>.json] and then removes the backing path,
    which names the same file. *)
Lemma save_files_witness :
  can_create_directories (FileSystem := demo_fs) "keys" (files demo_store_dot)
  = true
  ∧ m_keys demo_store_dot !! 1
    = Some (null_type, "./keys/00000000-0000-0000-0000-000000000001.json")
  ∧ canonical (FileSystem := demo_fs)
      "./keys/00000000-0000-0000-0000-000000000001.json"
    = canonical (FileSystem := demo_fs) (key_file "keys" 1)
  ∧ files (save (FS := demo_fs) "keys" demo_store_dot).2
      !! canonical (FileSystem := demo_fs) (key_file "keys" 1)
    = None.
Proof.
  assert (can_create_directories (FileSystem := demo_fs) "keys"
            (files demo_store_dot) = true) as Hdir by (by vm_compute).
  assert (m_keys demo_store_dot !! 1
          = Some (null_type,
                  "./keys/00000000-0000-0000-0000-000000000001.json"))
    as Hk by (by vm_compute).
  assert (canonical (FileSystem := demo_fs)
            "./keys/00000000-0000-0000-0000-000000000001.json"
          = canonical (FileSystem := demo_fs) (key_file "keys" 1)) as Hsame
    by (by vm_compute).
  split; [exact Hdir|]. split; [exact Hk|]. split; [exact Hsame|].
  destruct (save_files (JSON := demo_json) (FS := demo_fs) "keys"
              demo_store_dot 1 _ Hdir Hk) as [_ Hgone].
  - intros u' [e' Hu'] Hne. unfold demo_store_dot in Hu'.
    cbn [m_keys] in Hu'.
    by apply lookup_singleton_Some in Hu' as [<- _].
  - apply Hgone; [|exact Hsame]. split; [done|]. by vm_compute.
Defined.

Lemma load_files_throws_witness :
  (read_string (JsonSpirit := demo_json)
     (obj_type {["Version" := str_type "x"]}) null_type).2
  = obj_type {["Version" := str_type "x"]}
  ∧ load_files (JSON := demo_json)
      [("keys/k.json", obj_type {["Version" := str_type "x"]});
       ("keys/l.json", obj_type ∅)] null_type (mkWorld ∅ ∅ ∅ [])
    = (Throw stoi_exception, mkWorld ∅ ∅ ∅ []).
Proof.
  assert ((read_string (JsonSpirit := demo_json)
             (obj_type {["Version" := str_type "x"]}) null_type).2
          = obj_type {["Version" := str_type "x"]}) as Hread by reflexivity.
  split; [exact Hread|].
  destruct (load_files_throws (JSON := demo_json) "keys/k.json"
              (obj_type {["Version" := str_type "x"]})
              [("keys/l.json", obj_type ∅)] null_type
              {["Version" := str_type "x"]} (mkWorld ∅ ∅ ∅ []) Hread)
    as [Hstoi _].
  apply (Hstoi "x"); by vm_compute.
Defined.

Lemma load_files_reuses_value_witness :
  (read_string (JsonSpirit := demo_json_files)
     (Some (obj_type (demo_key_object 2))) null_type).2
  = obj_type (demo_key_object 2)
  ∧ read_string (JsonSpirit := demo_json_files) None
      (obj_type (demo_key_object 2))
    = (false, obj_type (demo_key_object 2))
  ∧ version_field (demo_key_object 2) 2
  ∧ m_keys
      (load_files (JSON := demo_json_files)
         [("keys/k.json", Some (obj_type (demo_key_object 2)));
          ("keys/l.json", None)] null_type (mkWorld ∅ ∅ ∅ [])).2 !! 1
    = Some (Some null_type, "keys/l.json").
Proof.
  assert (version_field (demo_key_object 2) 2) as Hver.
  { right. left. split; [by vm_compute|]. exists 2. by vm_compute. }
  split; [reflexivity|]. split; [reflexivity|]. split; [exact Hver|].
  rewrite (load_files_reuses_value (JSON := demo_json_files)
             "keys/k.json" "keys/l.json" (Some (obj_type (demo_key_object 2)))
             None null_type (demo_key_object 2)
             "00000000-0000-0000-0000-000000000001" 1 (mkWorld ∅ ∅ ∅ [])
             eq_refl eq_refl Hver eq_refl eq_refl).
  by vm_compute.
Defined.

Lemma importSecret_secret_witness :
  0 ≤ 9 < 2 ^ 128
  ∧ can_create_directories (FileSystem := demo_fs) "keys" ∅ = true
  ∧ (importSecret (JSON := demo_json) (CRYPTO := demo_crypto)
       (KECCAK := demo_keccak) (FS := demo_fs) "keys" [x2a] "pw" 1 5 9
       (mkWorld ∅ ∅ ∅ [])).1
    = Ret 1.
Proof.
  assert (0 ≤ 9 < 2 ^ 128) as Hiv by lia. split; [exact Hiv|].
  assert (can_create_directories (FileSystem := demo_fs) "keys" ∅ = true)
    as Hdir by reflexivity.
  split; [exact Hdir|].
  destruct (importSecret_secret (JSON := demo_json) (CRYPTO := demo_crypto)
              (KECCAK := demo_keccak) (FS := demo_fs) demo_read_write_string
              demo_sha3_range demo_decryptSymNoAuth_encryptSymNoAuth "keys"
              [x2a] "pw" 1 5 9 (mkWorld ∅ ∅ ∅ []) Hiv Hdir)
    as (w1 & Hrun & _).
  rewrite Hrun. reflexivity.
Defined.

Lemma save_load_entry_witness :
  0 ≤ 1 < 2 ^ 128
  ∧ load_files (JSON := demo_json)
      [(key_file "keys" 1,
        write_string (JsonSpirit := demo_json)
          (obj_type (key_file_object (JSON := demo_json)
                           (1, (null_type, "")) 2)) true)]
      null_type (mkWorld ∅ ∅ ∅ [])
    = (Ret tt,
       mkWorld {[1 := (null_type, key_file "keys" 1)]} ∅ ∅ []).
Proof.
  assert (0 ≤ 1 < 2 ^ 128) as Hu by lia. split; [exact Hu|].
  destruct (save_load_entry (JSON := demo_json) (CRYPTO := demo_crypto)
              (KECCAK := demo_keccak) demo_read_write_string "keys" 1
              (null_type, "") Hu) as [Hload _].
  rewrite Hload. reflexivity.
Defined.

Lemma crypto_decrypt_encrypt_witness :
  crypto.decrypt (ECIES := demo_ecies) 1
    (crypto.encrypt (ECIES := demo_ecies) 1 0 [x2a])
  = Done [x2a].
Proof.
  destruct (crypto_decrypt_encrypt (ECIES := demo_ecies) 1 1
              (λ _ _, eq_refl) (λ _ _, eq_refl) (λ _, eq_refl) 0 [x2a])
    as [Hround _].
  by apply Hround.
Defined.

(** ** The definitions on small inputs *)

Example toHex_ex : toHex [x00; xab; xff; x10] = "00abff10".
Proof. reflexivity. Qed.

Example fromHex_prefix_ex : fromHex "0x00abFF10" = [x00; xab; xff; x10].
Proof. reflexivity. Qed.

Example fromHex_odd_ex : fromHex "abc" = [x0a; xbc].
Proof. reflexivity. Qed.

Example fromHex_bad_ex : fromHex "0g" = [].
Proof. reflexivity. Qed.

Example toUUID_ex :
  toUUID 0x0102030405060708090a0b0c0d0e0f10
  = "01020304-0506-0708-090a-0b0c0d0e0f10".
Proof. reflexivity. Qed.

Example fromUUID_ex :
  fromUUID "01020304-0506-0708-090a-0b0c0d0e0f10"
  = Some 0x0102030405060708090a0b0c0d0e0f10
  ∧ fromUUID "01020304-0506-0708-090a-0b0c0d0e0f" = None
  ∧ fromUUID "0102030405060708090a0b0c0d0e0f10" = None
  ∧ fromUUID "key" = None.
Proof. by vm_compute. Qed.

Example stoi_ex :
  stoi "2" = Some 2 ∧ stoi " +3x" = Some 3 ∧ stoi "-12" = Some (-12)
  ∧ stoi "v3" = None ∧ stoi "99999999999" = None.
Proof. by vm_compute. Qed.

Example right160_ex :
  right160 0x000102030405060708090a0b0c0d0e0f101112131415161718191a1b1c1d1e1f
  = 0x0c0d0e0f101112131415161718191a1b1c1d1e1f.
Proof. reflexivity. Qed.

Example in_directory_ex :
  in_directory "keys" "keys/a.json" = true
  ∧ in_directory "keys/" "keys/a.json" = true
  ∧ in_directory "keys" "keys/sub/a.json" = false
  ∧ in_directory "keys" "keysa.json" = false.
Proof. by vm_compute. Qed.

Example isValid_ex :
  SignatureStruct.isValid (SignatureStruct.mk 1 1 1) = true
  ∧ SignatureStruct.isValid (SignatureStruct.mk 1 1 2) = false
  ∧ SignatureStruct.isValid (SignatureStruct.mk 0 1 0) = false
  ∧ SignatureStruct.isValid
      (SignatureStruct.mk (c_secp256k1n - 1) (c_secp256k1n - 1) 0) = true.
Proof. by vm_compute. Qed.

(** A run of the store in the small instance: a secret is imported, read
    from the cache, and, the cache cleared, decrypted again with the
    passphrase that the callback gives; a wrong passphrase gives nothing
    and leaves the cache empty. *)
Example store_run_ex :
  let w1 := (importSecret (JSON := demo_json) (CRYPTO := demo_crypto)
               (KECCAK := demo_keccak) (FS := demo_fs) "keys" [x2a; x2b]
               "pw" 1 5 9 (mkWorld ∅ ∅ ∅ [])).2 in
  let w2 := (clearCache w1).2 in
  (secret (CRYPTO := demo_crypto) (KECCAK := demo_keccak) 1 (λ _, "no") w1).1
  = Ret [x2a; x2b]
  ∧ trace (secret (CRYPTO := demo_crypto) (KECCAK := demo_keccak) 1
             (λ _, "no") w1).2 = trace w1
  ∧ (secret (CRYPTO := demo_crypto) (KECCAK := demo_keccak) 1
       (λ _, "pw") w2).1 = Ret [x2a; x2b]
  ∧ m_cached (secret (CRYPTO := demo_crypto) (KECCAK := demo_keccak) 1
                (λ _, "pw") w2).2 = {[1 := [x2a; x2b]]}
  ∧ (secret (CRYPTO := demo_crypto) (KECCAK := demo_keccak) 1
       (λ _, "no") w2).1 = Ret []
  ∧ m_cached (secret (CRYPTO := demo_crypto) (KECCAK := demo_keccak) 1
                (λ _, "no") w2).2 = ∅.
Proof. by vm_compute. Qed.

(** Where [keys] is a regular file, [save] and [load] throw and leave the
    store as it is. *)
Example save_throws_ex :
  let w := mkWorld (JSON := demo_json) {[1 := (null_type, "")]} ∅
             {["keys" := null_type]} [] in
  save (FS := demo_fs) "keys" w = (Throw filesystem_error, w)
  ∧ load (FS := demo_fs) "./keys" w = (Throw filesystem_error, w).
Proof. by vm_compute. Qed.

(** A key file read from [./keys] and saved to [keys]: [save] writes the
    key file and then removes the backing path, another spelling of the
    same file, so that the key has no file afterwards. *)
Example load_save_spelling_ex :
  let disk : gmap string (json_text (JsonSpirit := demo_json)) :=
    {["keys/00000000-0000-0000-0000-000000000001.json"
      := obj_type (demo_key_object 2)]} in
  let w1 := (load (FS := demo_fs) "./keys" (mkWorld ∅ ∅ disk [])).2 in
  let w2 := (save (FS := demo_fs) "keys" w1).2 in
  m_keys w1
  = {[1 := (null_type,
            "./keys/00000000-0000-0000-0000-000000000001.json")]}
  ∧ m_keys w2
    = {[1 := (null_type, "keys/00000000-0000-0000-0000-000000000001.json")]}
  ∧ files w2 = ∅.
Proof. by vm_compute. Qed.
